(** * go-angular: the image registry, the vote tally and the vote store

    A shallow embedding of [photo.go] and the properties of it that the
    specification states.

    - Go's [int] is the 64-bit signed integer; arithmetic on it wraps.
    - [*Image] values are addresses into a heap of [Image] cells, so that the
      aliasing between the caller's images and the registry's is explicit.
    - A run-time panic (a nil dereference) is the [None] of the option monad.
    - [log.Fatal] ends the process; store operations return an [outcome].
    - The functions of Go's library that the program calls ([strconv.Atoi],
      [fmt.Sprintf], [strings.Repeat], [strings.Split], [strings.Join]) and
      the SQL engine behind [database/sql] are modelled next to their use. *)

From Stdlib Require Import ZArith Lia Ascii String List Permutation.
From stdpp Require Import base option list strings.

Local Open Scope string_scope.
Local Open Scope list_scope.
Local Open Scope Z_scope.

(** ** Go's [int] *)

Module GoInt.

Definition intSize : Z := 64.
Definition MaxInt : Z := 2 ^ (intSize - 1) - 1.
Definition MinInt : Z := - 2 ^ (intSize - 1).

(** The value an [int] operation yields for the mathematical result [z]. *)
Definition wrap (z : Z) : Z :=
  (z + 2 ^ (intSize - 1)) mod 2 ^ intSize - 2 ^ (intSize - 1).

Definition in_range (z : Z) : Prop := MinInt <= z <= MaxInt.

(** [x++] and [x--] *)
Definition incr (x : Z) : Z := wrap (x + 1).
Definition decr (x : Z) : Z := wrap (x - 1).

End GoInt.

(** ** Strings: the library functions the program calls *)

(** [fmt.Sprintf] on string operands.  The only verb in the formats of this
    program is [%s]; it is replaced by the next operand.  A verb without an
    operand prints as [%!s(MISSING)], operands left over are reported after
    the text as [%!(EXTRA string=..., ...)], as [fmt] does. *)
Fixpoint extra_operands (args : list string) : string :=
  match args with
  | [] => ""
  | [a] => "string=" +:+ a
  | a :: rest => "string=" +:+ a +:+ ", " +:+ extra_operands rest
  end.

Fixpoint Sprintf (format : string) (args : list string) : string :=
  match format with
  | EmptyString =>
      match args with
      | [] => ""
      | _ => "%!(EXTRA " +:+ extra_operands args +:+ ")"
      end
  | String "%" (String "s" rest) =>
      match args with
      | a :: args' => a +:+ Sprintf rest args'
      | [] => "%!s(MISSING)" +:+ Sprintf rest []
      end
  | String c rest => String c (Sprintf rest args)
  end.

(** [strings.Repeat(s, count)] for [count >= 0] (it panics below zero, and
    [len(ids)] never is). *)
Fixpoint Repeat (s : string) (count : nat) : string :=
  match count with
  | O => ""
  | S n => s +:+ Repeat s n
  end.

(** [strings.Split(s, "")]: with the empty separator the string is cut after
    every character, and the empty string yields no piece at all.  (Go cuts
    after every UTF-8 sequence; the program only splits runs of ["?"], where
    a character is a byte.) *)
Fixpoint Split_chars (s : string) : list string :=
  match s with
  | EmptyString => []
  | String c rest => String c "" :: Split_chars rest
  end.

(** [strings.Join(elems, sep)] *)
Fixpoint Join (elems : list string) (sep : string) : string :=
  match elems with
  | [] => ""
  | [a] => a
  | a :: rest => a +:+ sep +:+ Join rest sep
  end.

(** ** The data of [photo.go] *)

Definition SizeSmallSquare := "s".
Definition SizeThumbnail := "t".
Definition SizeSmall := "m".
Definition SizeMedium500 := "-".
Definition SizeMedium640 := "z".
Definition SizeLarge := "b".
Definition SizeOriginal := "o".

Module Photo.
Record t := mk {
  ID : string; Owner : string; Secret : string; Server : string;
  Farm : string; Title : string; IsPublic : string; IsFriend : string;
  IsFamily : string; Thumbnail_T : string; Large_T : string }.
End Photo.

Module Image.
Record t := mk {
  ID : string; Title : string; Thumbnail : string; Large : string;
  UpVotes : Z; DownVotes : Z }.
End Image.

(** [func (p *Photo) URL(size string) string] *)
Definition URL (p : Photo.t) (size : string) : string :=
  if String.eqb size "-" then
    Sprintf "http://farm%s.static.flickr.com/%s/%s_%s.jpg"
      [Photo.Farm p; Photo.Server p; Photo.ID p; Photo.Secret p]
  else
    Sprintf "http://farm%s.static.flickr.com/%s/%s_%s_%s.jpg"
      [Photo.Farm p; Photo.Server p; Photo.ID p; Photo.Secret p; size].

(** ** The heap of images and the registry *)

(** An [*Image] is [nil] or the address of a cell of the heap: a [ptr] is
    [None] or [Some l] with [l] the index of the cell. *)
Abbreviation loc := nat (only parsing).
Abbreviation ptr := (option nat) (only parsing).

(** Go's [error] values as far as the registry needs them: [Save] only ever
    returns [nil]. *)
Definition error := option string.

(** The images of the program and the field [images] of the manager
    ([m.images], a slice of addresses: the entries are never [nil], since
    only [cloneImage]'s results are appended). *)
Record State := mkState { heap : list Image.t; images : list loc }.

(** [NewImageManager()]: no image saved. *)
Definition NewImageManager : State := mkState [] [].

(** [*p] *)
Definition load (h : list Image.t) (p : ptr) : option Image.t :=
  l ← p; h !! l.

Definition set_UpVotes (v : Z) (a : Image.t) : Image.t :=
  Image.mk (Image.ID a) (Image.Title a) (Image.Thumbnail a) (Image.Large a)
           v (Image.DownVotes a).
Definition set_DownVotes (v : Z) (a : Image.t) : Image.t :=
  Image.mk (Image.ID a) (Image.Title a) (Image.Thumbnail a) (Image.Large a)
           (Image.UpVotes a) v.

(** [func (m *ImageManager) NewImage(photo Photo) *Image]: a new cell. *)
Definition NewImage (s : State) (photo : Photo.t) : State * ptr :=
  (mkState (heap s ++ [Image.mk (Photo.ID photo) (Photo.Title photo)
                                (URL photo SizeThumbnail) (URL photo SizeLarge)
                                0 0])
           (images s),
   Some (length (heap s))).

(** [func cloneImage(i *Image) *Image]: [c := *i; return &c]. *)
Definition cloneImage (h : list Image.t) (i : ptr) : option (list Image.t * loc) :=
  c ← load h i; Some (h ++ [c], length h).

(** The loop of [Save]: is there an [im] in [m.images] with
    [im.ID == image.ID]? *)
Fixpoint Save_loop (h : list Image.t) (ims : list loc) (image : ptr) : option bool :=
  match ims with
  | [] => Some false
  | im :: rest =>
      a ← h !! im; i ← load h image;
      if String.eqb (Image.ID a) (Image.ID i) then Some true
      else Save_loop h rest image
  end.

(** [func (m *ImageManager) Save(image *Image) error] *)
Definition Save (s : State) (image : ptr) : option (State * error) :=
  found ← Save_loop (heap s) (images s) image;
  if found : bool then Some (s, None)
  else
    '(h, c) ← cloneImage (heap s) image;
    Some (mkState h (images s ++ [c]), None).

(** [func (m *ImageManager) Find(ID string)], returning the entry and [true],
    or [nil] and [false] *)
Fixpoint Find_loop (h : list Image.t) (ims : list loc) (ID : string) : option (ptr * bool) :=
  match ims with
  | [] => Some (None, false)
  | im :: rest =>
      a ← h !! im;
      if String.eqb (Image.ID a) ID then Some (Some im, true)
      else Find_loop h rest ID
  end.

Definition Find (s : State) (ID : string) : option (ptr * bool) :=
  Find_loop (heap s) (images s) ID.

(** The loop of [Update]: every [im] with [im.ID == image.ID] gets
    [im.UpVotes = image.UpVotes] and then [im.DownVotes = image.DownVotes];
    [image] is read again at each use, since [im] may be [image] itself. *)
Fixpoint Update_loop (h : list Image.t) (ims : list loc) (image : ptr) : option (list Image.t) :=
  match ims with
  | [] => Some h
  | im :: rest =>
      a ← h !! im; i ← load h image;
      if String.eqb (Image.ID a) (Image.ID i) then
        let h1 := <[im := set_UpVotes (Image.UpVotes i) a]> h in
        a1 ← h1 !! im; i1 ← load h1 image;
        let h2 := <[im := set_DownVotes (Image.DownVotes i1) a1]> h1 in
        Update_loop h2 rest image
      else Update_loop h rest image
  end.

(** [func (m *ImageManager) Update(image *Image, upOrDown bool) (int, int)] *)
Definition Update (s : State) (image : ptr) (upOrDown : bool) : option (State * (Z * Z)) :=
  l ← image; i ← heap s !! l;
  let h0 :=
    if upOrDown then <[l := set_UpVotes (GoInt.incr (Image.UpVotes i)) i]> (heap s)
    else <[l := set_DownVotes (GoInt.decr (Image.DownVotes i)) i]> (heap s) in
  h ← Update_loop h0 (images s) image;
  r ← load h image;
  Some (mkState h (images s), (Image.UpVotes r, Image.DownVotes r)).

(** [func (m *ImageManager) All() []*Image] *)
Definition All (s : State) : list loc := images s.

(** An assignment through a pointer made by the caller itself, outside the
    manager: [*p = v] (any sequence of field assignments is one of these). *)
Definition assign (s : State) (p : loc) (v : Image.t) : State :=
  mkState (<[p := v]> (heap s)) (images s).

(** [n] calls [m.Update(image, upOrDown)] in a row. *)
Fixpoint Update_times (n : nat) (s : State) (image : ptr) (upOrDown : bool) : option State :=
  match n with
  | O => Some s
  | S k => '(s1, _) ← Update s image upOrDown; Update_times k s1 image upOrDown
  end.

(** The operations of the registry on images, and their runs from the empty
    registry.  Each operation receives the pointers the caller holds. *)
Inductive op :=
| OpNewImage (photo : Photo.t)
| OpSave (image : ptr)
| OpUpdate (image : ptr) (upOrDown : bool).

Definition step (s : State) (o : op) : option State :=
  match o with
  | OpNewImage photo => Some (fst (NewImage s photo))
  | OpSave image => fst <$> Save s image
  | OpUpdate image b => fst <$> Update s image b
  end.

Fixpoint run (s : State) (ops : list op) : option State :=
  match ops with
  | [] => Some s
  | o :: rest => s1 ← step s o; run s1 rest
  end.

Definition reachable (s : State) : Prop :=
  ∃ ops, run NewImageManager ops = Some s.

(** The registry's entries, read through their addresses. *)
Definition entries (s : State) : list Image.t :=
  omap (λ l, heap s !! l) (images s).

(** ** [strconv.Atoi] and the summary of a search *)

Module strconv.

(** The two errors of a conversion ([strconv.ErrSyntax], [strconv.ErrRange]);
    [None] is Go's [nil] error. *)
Inductive NumError := ErrSyntax | ErrRange.
Definition error := option NumError.

Definition maxUint64 : Z := 2 ^ 64 - 1.

(** The value of a decimal digit; no other byte is a digit in base 10. *)
Definition digit (c : ascii) : option Z :=
  let n := Z.of_nat (nat_of_ascii c) in
  if (48 <=? n) && (n <=? 57) then Some (n - 48) else None.

(** The loop of [ParseUint(s, 10, 64)] over the bytes of [s], with the
    number [n] read so far.  A byte that is no digit ends it with a syntax
    error and 0; a number that leaves the 64 unsigned bits ends it at once
    with a range error and the largest value, whatever follows. *)
Fixpoint ParseUint_loop (s : string) (n : Z) : Z * error :=
  match s with
  | EmptyString => (n, None)
  | String c rest =>
      match digit c with
      | None => (0, Some ErrSyntax)
      | Some d =>
          if maxUint64 / 10 + 1 <=? n then (maxUint64, Some ErrRange)
          else
            let n1 := n * 10 + d in
            if maxUint64 <? n1 then (maxUint64, Some ErrRange)
            else ParseUint_loop rest n1
      end
  end.

Definition ParseUint (s : string) : Z * error :=
  match s with
  | EmptyString => (0, Some ErrSyntax)
  | _ => ParseUint_loop s 0
  end.

(** [ParseInt(s, 10, 0)]: an optional sign, then [ParseUint]; a syntax error
    gives 0, a value outside the [int] range gives the nearest bound and a
    range error. *)
Definition ParseInt (s : string) : Z * error :=
  match s with
  | EmptyString => (0, Some ErrSyntax)
  | String c rest =>
      let neg := Ascii.eqb c "-" in
      let s1 := if Ascii.eqb c "+" || neg then rest else s in
      match ParseUint s1 with
      | (_, Some ErrSyntax) => (0, Some ErrSyntax)
      | (un, _) =>
          let cutoff := 2 ^ (GoInt.intSize - 1) in
          if negb neg && (cutoff <=? un) then (cutoff - 1, Some ErrRange)
          else if neg && (cutoff <? un) then (- cutoff, Some ErrRange)
          else
            let n := GoInt.wrap un in
            (if neg then GoInt.wrap (- n) else n, None)
      end
  end.

(** [func Atoi(s string) (int, error)] is [ParseInt(s, 10, 0)] converted to
    [int]; its short-cut for short strings computes the same pair. *)
Definition Atoi (s : string) : Z * error := ParseInt s.

(** A numeric string: an optional sign followed by one decimal digit or
    more. *)
Fixpoint all_digits (s : string) : bool :=
  match s with
  | EmptyString => true
  | String c rest => bool_decide (is_Some (digit c)) && all_digits rest
  end.

Definition unsigned_numeric (s : string) : bool :=
  match s with
  | EmptyString => false
  | _ => all_digits s
  end.

Definition numeric (s : string) : bool :=
  match s with
  | EmptyString => false
  | String c rest =>
      if Ascii.eqb c "+" || Ascii.eqb c "-" then unsigned_numeric rest
      else unsigned_numeric s
  end.

End strconv.

Module SearchResponse.
Record t := mk {
  Page : string; Pages : string; PerPage : string; Total : string;
  Photos : list Photo.t }.
End SearchResponse.

Module PuppiesResponse.
Record t := mk {
  Page : Z; Pages : Z; PerPage : Z; Total : Z; Images : list loc }.
End PuppiesResponse.

(** [func (m *ImageManager) GetPuppiesResponse(searchResponse *SearchResponse) *PuppiesResponse].
    Each of the four conversions assigns the same variable [err]; the test
    after them sees the error of the last one.  [None] is the [nil] result. *)
Definition GetPuppiesResponse (s : State) (searchResponse : SearchResponse.t)
  : option PuppiesResponse.t :=
  let '(page, err) := strconv.Atoi (SearchResponse.Page searchResponse) in
  let '(pages, err) := strconv.Atoi (SearchResponse.Pages searchResponse) in
  let '(perPage, err) := strconv.Atoi (SearchResponse.PerPage searchResponse) in
  let '(total, err) := strconv.Atoi (SearchResponse.Total searchResponse) in
  match err with
  | Some _ => None
  | None => Some (PuppiesResponse.mk page pages perPage total (images s))
  end.

(** ** The vote store

    The program talks to sqlite3 through [database/sql].  The model keeps the
    table [votes] as the list of its rows and interprets the two statements
    of the program.  What differs between SQL engines, or is not fixed by the
    program's text, is a field of [Engine]. *)

Module sql.

(** A stored value: NULL, a 64-bit integer or a text. *)
Inductive value := Null | Integer (z : Z) | Text (s : string).

Definition value_eqb (a b : value) : bool :=
  match a, b with
  | Integer x, Integer y => Z.eqb x y
  | Text x, Text y => String.eqb x y
  | _, _ => false
  end.

(** A row of
    [votes (id integer not null primary key, puppy_id integer unique,
            up_votes integer, down_votes integer)]. *)
Record row := mkRow {
  id : value; puppy_id : value; up_votes : value; down_votes : value }.

(** The table is absent until [CreateTables] has run. *)
Inductive table := NoTable | Votes (rows : list row).

(** The store behind [m.db], with the statements it was asked to prepare
    (oldest first). *)
Record DB := mkDB { votes : table; statements : list string }.

Record Engine := mkEngine {
  (** the value a text operand takes in a column of integer affinity, and
      when it is compared with such a column *)
  integer_affinity : string → value;
  (** whether [x in ()] is a statement (it is in sqlite3, not in the SQL
      standard) *)
  empty_list_ok : bool;
  (** the [id] given to a row inserted without one *)
  next_rowid : list row → Z;
  (** the order in which a [select] without [order by] visits the rows *)
  scan_order : list row → list row }.

(** How a call on the store ends: it returns, or [log.Fatal] ends the
    process, or it panics. *)
Inductive outcome (A : Type) := Ok (a : A) | Fatal | Panic.
Arguments Ok {A} a.
Arguments Fatal {A}.
Arguments Panic {A}.

(** The statements of the program, as the engine reads them. *)
Inductive Stmt := StmtInsert | StmtSelectIn (placeholders : nat).

Definition insert_text : string :=
  "insert into votes(puppy_id, up_votes, down_votes) values(?, ?, ?)".
Definition select_head : string :=
  "select * from votes where puppy_id in (".

Fixpoint strip_prefix (p s : string) : option string :=
  match p, s with
  | EmptyString, _ => Some s
  | String a p1, String b s1 =>
      if Ascii.eqb a b then strip_prefix p1 s1 else None
  | _, _ => None
  end.

(** After a placeholder: the closing bracket, or a comma and another
    placeholder. *)
Fixpoint more_placeholders (s : string) : option nat :=
  match s with
  | String ")" EmptyString => Some O
  | String "," (String "?" rest) => S <$> more_placeholders rest
  | _ => None
  end.

(** The list of an [in (...)], from its first character on: the number of
    its placeholders. *)
Definition placeholder_list (s : string) : option nat :=
  match s with
  | String ")" EmptyString => Some O
  | String "?" rest => S <$> more_placeholders rest
  | _ => None
  end.

(** The most variables ([?]) one statement may have: sqlite3 refuses a
    statement with more when it is prepared ([SQLITE_MAX_VARIABLE_NUMBER],
    32766 in the library the driver is built with). *)
Definition max_variable_number : Z := 32766.

Definition parse (e : Engine) (query : string) : option Stmt :=
  if String.eqb query insert_text then Some StmtInsert
  else
    rest ← strip_prefix select_head query;
    n ← placeholder_list rest;
    match n with
    | O => if empty_list_ok e then Some (StmtSelectIn O) else None
    | _ =>
        if Z.of_nat n <=? max_variable_number then Some (StmtSelectIn n)
        else None
    end.

(** [db.Prepare(query)] and [tx.Prepare(query)]: the statement is compiled
    at once, which fails when the table is absent, the text is no statement
    or it has too many variables. *)
Definition Prepare (e : Engine) (db : DB) (query : string) : option Stmt * DB :=
  (match votes db with
   | NoTable => None
   | Votes _ => parse e query
   end,
   mkDB (votes db) (statements db ++ [query])).

(** [puppy_id] is [unique]: no two rows hold the same value that is not
    NULL. *)
Definition unique_ok (v : value) (rows : list row) : bool :=
  negb (existsb (λ r, value_eqb (puppy_id r) v) rows).

(** [stmt.Exec(im.ID, im.UpVotes, im.DownVotes)] of the insert statement: a
    string and two [int]s are bound. *)
Definition Exec_insert (e : Engine) (rows : list row)
    (ID : string) (UpVotes DownVotes : Z) : option (list row) :=
  let v := integer_affinity e ID in
  if unique_ok v rows then
    Some (rows ++ [mkRow (Integer (next_rowid e rows)) v
                         (Integer UpVotes) (Integer DownVotes)])
  else None.

(** [puppy_id in (?, ..., ?)] with the strings [params] bound. *)
Definition in_params (e : Engine) (v : value) (params : list string) : bool :=
  existsb (λ p, value_eqb v (integer_affinity e p)) params.

(** [stmt.Query(params...)] of the select statement; the number of operands
    must be the number of placeholders. *)
Definition Query_select (e : Engine) (rows : list row) (placeholders : nat)
    (params : list string) : option (list row) :=
  if Nat.eqb (length params) placeholders then
    Some (List.filter (λ r, in_params e (puppy_id r) params) (scan_order e rows))
  else None.

End sql.

Module DBVote.
Record t := mk { id : Z; puppy_id : Z; up_votes : Z; down_votes : Z }.
End DBVote.

(** The conversion of a column to an [int] destination in [rows.Scan]:
    [database/sql] prints the value and reads it with [strconv.ParseInt];
    NULL and a text that is no integer are errors. *)
Definition convert_int (v : sql.value) : option Z :=
  match v with
  | sql.Integer z => Some z
  | sql.Text s =>
      match strconv.ParseInt s with
      | (z, None) => Some z
      | _ => None
      end
  | sql.Null => None
  end.

(** [var dbVote DBVote; rows.Scan(&dbVote.id, &dbVote.puppy_id,
    &dbVote.up_votes, &dbVote.down_votes)]: [Scan] stops at the first column
    it cannot convert, the program drops its error, and the fields not
    reached keep their zero. *)
Definition Scan (r : sql.row) : DBVote.t :=
  match convert_int (sql.id r) with
  | None => DBVote.mk 0 0 0 0
  | Some a =>
      match convert_int (sql.puppy_id r) with
      | None => DBVote.mk a 0 0 0
      | Some b =>
          match convert_int (sql.up_votes r) with
          | None => DBVote.mk a b 0 0
          | Some c =>
              match convert_int (sql.down_votes r) with
              | None => DBVote.mk a b c 0
              | Some d => DBVote.mk a b c d
              end
          end
      end
  end.

(** The loop of [InsertPuppies] over [images], inside the transaction. *)
Fixpoint InsertPuppies_loop (e : sql.Engine) (h : list Image.t)
    (rows : list sql.row) (images : list ptr) : sql.outcome (list sql.row) :=
  match images with
  | [] => sql.Ok rows
  | im :: rest =>
      match load h im with
      | None => sql.Panic
      | Some a =>
          match sql.Exec_insert e rows (Image.ID a) (Image.UpVotes a)
                                (Image.DownVotes a) with
          | None => sql.Fatal
          | Some rows1 => InsertPuppies_loop e h rows1 rest
          end
      end
  end.

(** [func (m *ImageManager) InsertPuppies(images []*Image)]; [db] is the
    field [m.db], [None] when it is [nil].  The rows are committed together
    at the end; a fatal error before that leaves the process dead and the
    transaction undone. *)
Definition InsertPuppies (e : sql.Engine) (db : option sql.DB)
    (h : list Image.t) (images : list ptr) : sql.outcome sql.DB :=
  match db with
  | None => sql.Panic
  | Some d =>
      let '(stmt, d1) := sql.Prepare e d sql.insert_text in
      match stmt, sql.votes d1 with
      | Some sql.StmtInsert, sql.Votes rows =>
          match InsertPuppies_loop e h rows images with
          | sql.Ok rows1 => sql.Ok (sql.mkDB (sql.Votes rows1) (sql.statements d1))
          | sql.Fatal => sql.Fatal
          | sql.Panic => sql.Panic
          end
      | _, _ => sql.Fatal
      end
  end.

(** The text [FindOldPuppies] builds for [ids]. *)
Definition FindOldPuppies_query (ids : list string) : string :=
  Sprintf "select * from votes where puppy_id in (%s)"
    [Join (Split_chars (Repeat "?" (length ids))) ","].

(** [func (m *ImageManager) FindOldPuppies(ids []string) []*DBVote] *)
Definition FindOldPuppies (e : sql.Engine) (db : option sql.DB)
    (ids : list string) : sql.outcome (list DBVote.t * sql.DB) :=
  match db with
  | None => sql.Panic
  | Some d =>
      let query := FindOldPuppies_query ids in
      let '(stmt, d1) := sql.Prepare e d query in
      match stmt, sql.votes d1 with
      | Some (sql.StmtSelectIn n), sql.Votes rows =>
          let params := ids in
          match sql.Query_select e rows n params with
          | None => sql.Fatal
          | Some rs => sql.Ok (map Scan rs, d1)
          end
      | _, _ => sql.Fatal
      end
  end.

(** Two engines to run the model on; neither is sqlite3 itself.
    [engine_lenient] accepts the empty list as sqlite3 does, numbers the rows
    from 1, visits them in the order of insertion (sqlite3 may follow the
    index of [puppy_id]) and stores a text as an integer when it is a numeric
    string in the 64-bit range (sqlite3 does so for these texts, and for
    others such as [1.0]; the examples use no such text).  [engine_strict] differs in rejecting the empty list, as
    the SQL standard does.  The theorems on the store hold for every engine
    and do not rest on these two. *)
Definition decimal_affinity (s : string) : sql.value :=
  if strconv.numeric s then
    match strconv.ParseInt s with
    | (z, None) => sql.Integer z
    | _ => sql.Text s
    end
  else sql.Text s.

Definition engine_lenient : sql.Engine :=
  sql.mkEngine decimal_affinity true
               (λ rows, 1 + Z.of_nat (length rows)) (λ rows, rows).

Definition engine_strict : sql.Engine :=
  sql.mkEngine decimal_affinity false
               (λ rows, 1 + Z.of_nat (length rows)) (λ rows, rows).

(** ** Notions the statements use *)

(** Every address in the registry is that of a cell (Go has no other
    addresses). *)
Definition wf (s : State) : Prop :=
  ∀ r, r ∈ images s → is_Some (heap s !! r).

(** An image is saved under [ID] when an entry of the registry has that id. *)
Definition saved (s : State) (ID : string) : Prop :=
  ∃ r a, r ∈ images s ∧ heap s !! r = Some a ∧ Image.ID a = ID.

(** The number of entries of the registry with the id [ID]. *)
Definition count_id (s : State) (ID : string) : nat :=
  length (List.filter (λ a, String.eqb (Image.ID a) ID) (entries s)).

(** No two entries of the registry share an id. *)
Definition unique_ids (s : State) : Prop :=
  NoDup (Image.ID <$> entries s).

(** The pair of counts of an image, and what [n] votes in one direction make
    of it in [int] arithmetic. *)
Definition tally (a : Image.t) : Z * Z := (Image.UpVotes a, Image.DownVotes a).

Definition tally_after (isUpvote : bool) (n : nat) (t : Z * Z) : Z * Z :=
  if isUpvote then (GoInt.wrap (t.1 + Z.of_nat n), t.2)
  else (t.1, GoInt.wrap (t.2 - Z.of_nat n)).

Definition set_tally (t : Z * Z) (a : Image.t) : Image.t :=
  set_DownVotes t.2 (set_UpVotes t.1 a).

(** Every entry of the registry with the id [ID] has the counts [t]. *)
Definition registry_tally (s : State) (ID : string) (t : Z * Z) : Prop :=
  ∀ r a, r ∈ images s → heap s !! r = Some a → Image.ID a = ID → tally a = t.

(** The counts of an image are [int]s. *)
Definition int_counts (a : Image.t) : Prop :=
  GoInt.in_range (Image.UpVotes a) ∧ GoInt.in_range (Image.DownVotes a).

(** The counts of an image after at most [n] votes on fresh images: up-votes
    counted upward from zero, down-votes counted downward from zero. *)
Definition counts_within (n : Z) (a : Image.t) : Prop :=
  0 <= Image.UpVotes a <= n ∧ - n <= Image.DownVotes a <= 0.

(** What is kept by every operation of the registry. *)
Definition invariant (n : Z) (s : State) : Prop :=
  wf s ∧ unique_ids s ∧ ∀ a, a ∈ heap s → counts_within n a.

(** What the loop of [Update] makes of the cell at [k]: the cells of the
    registry with the id of [i] take the counts of [i]. *)
Definition sync (ims : list loc) (i : Image.t) (k : nat) (a : Image.t) : Image.t :=
  if bool_decide (k ∈ ims) && String.eqb (Image.ID a) (Image.ID i)
  then set_tally (tally i) a else a.

(** The image after one vote. *)
Definition voted (isUpvote : bool) (i : Image.t) : Image.t :=
  if isUpvote then set_UpVotes (GoInt.incr (Image.UpVotes i)) i
  else set_DownVotes (GoInt.decr (Image.DownVotes i)) i.

(** How a field of the search response shows in the summary: as the number
    [strconv.Atoi] returns for it.  That is 0 for a field that is no numeric
    string and has at most 20 characters, 0 beside any syntax error, and the
    nearest bound of [int] beside a range error. *)
Definition shown_as (field : string) (v : Z) : Prop :=
  v = (strconv.Atoi field).1 ∧
  (strconv.numeric field = false → (String.length field <= 20)%nat → v = 0) ∧
  ((strconv.Atoi field).2 = Some strconv.ErrSyntax → v = 0) ∧
  ((strconv.Atoi field).2 = Some strconv.ErrRange →
     v = GoInt.MaxInt ∨ v = GoInt.MinInt).

(** The rows the loop of [InsertPuppies] adds to [rows] for the images
    [imgs], when no insertion fails. *)
Fixpoint inserted (e : sql.Engine) (rows : list sql.row) (imgs : list Image.t)
  : list sql.row :=
  match imgs with
  | [] => []
  | a :: rest =>
      let r := sql.mkRow (sql.Integer (sql.next_rowid e rows))
                         (sql.integer_affinity e (Image.ID a))
                         (sql.Integer (Image.UpVotes a))
                         (sql.Integer (Image.DownVotes a)) in
      r :: inserted e (rows ++ [r]) rest
  end.

(** The number an id stands for, and the triple of an image and of a
    persisted vote that the round trip compares. *)
Definition id_number (a : Image.t) : Z := (strconv.Atoi (Image.ID a)).1.

Definition image_triple (a : Image.t) : Z * Z * Z :=
  (id_number a, Image.UpVotes a, Image.DownVotes a).

Definition vote_triple (v : DBVote.t) : Z * Z * Z :=
  (DBVote.puppy_id v, DBVote.up_votes v, DBVote.down_votes v).

(** A persisted vote matches an image: its [puppy_id] is the number the
    image's id is the text of, and the counts are equal. *)
Definition vote_matches (a : Image.t) (v : DBVote.t) : Prop :=
  strconv.Atoi (Image.ID a) = (DBVote.puppy_id v, None) ∧
  DBVote.up_votes v = Image.UpVotes a ∧
  DBVote.down_votes v = Image.DownVotes a.

(** ** Inputs to run the definitions on *)

(** A store whose table exists and is empty. *)
Definition store0 : sql.DB := sql.mkDB (sql.Votes []) [].

(** A registry with the ids 1, 2 and 3, and one with the single id [abc]. *)
Definition state123 : State :=
  mkState [Image.mk "1" "a" "" "" 3 (-2); Image.mk "2" "b" "" "" 0 0;
           Image.mk "3" "c" "" "" 1 (-1)]
          [0%nat; 1%nat; 2%nat].

Definition state_abc : State :=
  mkState [Image.mk "abc" "a" "" "" 5 0] [0%nat].

(** A search response whose page is no number, and one whose page is no
    number either but starts with more digits than 64 bits hold. *)
Definition response_bad_page : SearchResponse.t :=
  SearchResponse.mk "x" "2" "10" "15" [].
Definition response_long_page : SearchResponse.t :=
  SearchResponse.mk "99999999999999999999x" "2" "10" "15" [].

Definition photo1 : Photo.t :=
  Photo.mk "1" "owner" "secret" "server" "9" "puppy" "1" "0" "0" "" "".

(** The image of the specification's scenario, [Image{id:"1", up:0, down:0}],
    held by the caller at address 0 while the registry is empty. *)
Definition image1 : Image.t := Image.mk "1" "puppy" "t.jpg" "b.jpg" 0 0.
Definition state1 : State := mkState [image1] [].

(** [state1] after [Save] of its image: the copy is at address 1. *)
Definition state1_saved : State := mkState [image1; image1] [1%nat].

(** Votes in a row in one direction, each through an image the caller holds;
    [images_of s ID ps] says that each of these images has the id [ID]. *)
Definition votes_through (ps : list loc) (isUpvote : bool) : list op :=
  (λ p, OpUpdate (Some p) isUpvote) <$> ps.

Definition images_of (s : State) (ID : string) (ps : list loc) : Prop :=
  ∀ p, p ∈ ps → ∃ a, heap s !! p = Some a ∧ Image.ID a = ID.

(** Two up-votes on the id of [state1_saved]: the first through the entry
    that [Find] returns, the second through the image the caller saved. *)
Definition state1_voted_twice : State :=
  Eval vm_compute in
    default NewImageManager
      (run state1_saved (votes_through [1%nat; 0%nat] true)).

(** An image with the largest up-vote count an [int] holds, after [Save]. *)
Definition image_max : Image.t :=
  Image.mk "1" "puppy" "t.jpg" "b.jpg" GoInt.MaxInt 0.
Definition state_max_saved : State := mkState [image_max; image_max] [1%nat].

(** A new image, saved, then voted down once. *)
Definition ops_downvote : list op :=
  [OpNewImage photo1; OpSave (Some 0%nat); OpUpdate (Some 0%nat) false].

(** A new image, saved, then voted up 2^63 times. *)
Definition ops_overflow : list op :=
  [OpNewImage photo1; OpSave (Some 0%nat)]
  ++ replicate (Z.to_nat (2 ^ 63)) (OpUpdate (Some 0%nat) true).

Definition state_downvoted : State :=
  Eval vm_compute in default NewImageManager (run NewImageManager ops_downvote).

(** ** Opening the store and creating the table *)

Definition DatabaseName : string := "puppies.sqlite".

(** [func (m *ImageManager) InitDB(removeDb bool) error].  [file] is what
    the file [./puppies.sqlite] holds when the call is made ([sql.NoTable]
    when there is no file, or no table in it).  [os.Remove] deletes the file;
    [sql.Open] with the registered driver ["sqlite3"] returns a handle and no
    error without touching the file.  The result is the new [m.db] and the
    error returned, which is [nil]. *)
Definition InitDB (file : sql.table) (removeDb : bool) : option sql.DB * error :=
  (Some (sql.mkDB (if removeDb then sql.NoTable else file) []), None).

(** [func (m *ImageManager) GetDB() *sql.DB] *)
Definition GetDB (db : option sql.DB) : option sql.DB := db.

(** [func (m *ImageManager) CreateTables()]: [m.db.Exec] of
    [create table votes (...); delete from votes;].  The statements run in
    turn and the first failure ends the call: [create table] fails when the
    table exists, and [delete] is then not reached.  The error is printed
    and the call returns. *)
Definition CreateTables (db : option sql.DB) : sql.outcome sql.DB :=
  match db with
  | None => sql.Panic
  | Some d =>
      match sql.votes d with
      | sql.NoTable => sql.Ok (sql.mkDB (sql.Votes []) (sql.statements d))
      | sql.Votes rows => sql.Ok d
      end
  end.

(** The [unique] constraint on [puppy_id], for a whole table: no two rows
    hold equal values ([NULL] is equal to nothing). *)
Definition unique_puppy_ids (rows : list sql.row) : Prop :=
  ∀ (j k : nat) (rj rk : sql.row),
    rows !! j = Some rj → rows !! k = Some rk → j ≠ k →
    sql.value_eqb (sql.puppy_id rj) (sql.puppy_id rk) = false.

(** The row [InsertPuppies] writes for an image, but for its [id]. *)
Definition row_of (e : sql.Engine) (rowid : Z) (a : Image.t) : sql.row :=
  sql.mkRow (sql.Integer rowid) (sql.integer_affinity e (Image.ID a))
            (sql.Integer (Image.UpVotes a)) (sql.Integer (Image.DownVotes a)).

(** A store that has just been opened on no file, and a registry entry of
    [state1_saved] with three more up-votes than the caller's copy. *)
Definition state1_voted : State :=
  mkState [image1; Image.mk "1" "puppy" "t.jpg" "b.jpg" 3 0] [1%nat].

(** The number a numeric string is the decimal text of. *)
Fixpoint digits_value (s : string) (n : Z) : Z :=
  match s with
  | EmptyString => n
  | String c rest =>
      match strconv.digit c with
      | Some d => digits_value rest (n * 10 + d)
      | None => n
      end
  end.

Definition decimal_value (s : string) : Z :=
  match s with
  | EmptyString => 0
  | String c rest =>
      if Ascii.eqb c "-" then - digits_value rest 0
      else if Ascii.eqb c "+" then digits_value rest 0
      else digits_value s 0
  end.

(** A search response with four numeric fields. *)
Definition response_ok : SearchResponse.t :=
  SearchResponse.mk "3" "12" "+100" "-7" [].

(** The store after the registry [state123] has been inserted into the
    empty table. *)
Definition store123 : sql.DB :=
  Eval vm_compute in
    match InsertPuppies engine_lenient (Some store0) (heap state123)
                        (Some <$> All state123) with
    | sql.Ok d => d
    | _ => store0
    end.

(** The images [imgs] can be inserted into a table with the rows [rows]: the
    stored value of no id equals the [puppy_id] of a row, and no two of the
    images have ids with equal stored values. *)
Definition insertable (e : sql.Engine) (rows : list sql.row) (imgs : list Image.t)
  : Prop :=
  (∀ a r, a ∈ imgs → r ∈ rows →
     sql.value_eqb (sql.puppy_id r) (sql.integer_affinity e (Image.ID a)) = false) ∧
  (∀ (j k : nat) aj ak, imgs !! j = Some aj → imgs !! k = Some ak → j ≠ k →
     sql.value_eqb (sql.integer_affinity e (Image.ID aj))
                   (sql.integer_affinity e (Image.ID ak)) = false).

(** * Properties *)

(** A premise about the members of [x :: l], used for the members of [l]. *)
Ltac in_tail H :=
  let r := fresh "r" in let Hr := fresh "Hr" in
  intros r Hr; apply H; now apply list_elem_of_further.

Ltac in_tail2 H :=
  let r := fresh "r" in let a := fresh "a" in let Hr := fresh "Hr" in
  intros r a Hr; apply H; now apply list_elem_of_further.

(** ** [int] arithmetic *)

Lemma wrap_in_range z : GoInt.in_range (GoInt.wrap z).
Proof.
  unfold GoInt.in_range, GoInt.wrap, GoInt.MinInt, GoInt.MaxInt, GoInt.intSize.
  pose proof (Z.mod_pos_bound (z + 2 ^ (64 - 1)) (2 ^ 64) ltac:(lia)). lia.
Qed.

Lemma wrap_small z : GoInt.in_range z -> GoInt.wrap z = z.
Proof.
  unfold GoInt.in_range, GoInt.wrap, GoInt.MinInt, GoInt.MaxInt, GoInt.intSize. intros H.
  rewrite Z.mod_small; lia.
Qed.

Lemma wrap_wrap_add z k : GoInt.wrap (GoInt.wrap z + k) = GoInt.wrap (z + k).
Proof.
  unfold GoInt.wrap, GoInt.intSize.
  replace (((z + 2 ^ (64 - 1)) mod 2 ^ 64 - 2 ^ (64 - 1)) + k + 2 ^ (64 - 1))
    with ((z + 2 ^ (64 - 1)) mod 2 ^ 64 + k) by lia.
  replace (z + k + 2 ^ (64 - 1)) with ((z + 2 ^ (64 - 1)) + k) by lia.
  now rewrite Zplus_mod_idemp_l.
Qed.


(** ** The URL of a photo *)

Example URL_thumbnail :
  URL (Photo.mk "8432423659" "o" "dd1b834ec5" "8187" "9" "" "" "" "" "" "") SizeThumbnail
  = "http://farm9.static.flickr.com/8187/8432423659_dd1b834ec5_t.jpg".
Proof. reflexivity. Qed.

(** C8. For every photo record and every size string, [URL] is the text
    [http://farm<farm>.static.flickr.com/<server>/<id>_<secret>_<size>.jpg],
    and for the size ["-"] (medium-500), and only for it, the segment
    [_<size>] is left out.  [URL] is a total function of its two arguments:
    it has no failure case. *)
Theorem URL_form (p : Photo.t) (size : string) :
  URL p size =
    "http://farm" +:+ Photo.Farm p +:+ ".static.flickr.com/" +:+
    Photo.Server p +:+ "/" +:+ Photo.ID p +:+ "_" +:+ Photo.Secret p +:+
    (if String.eqb size SizeMedium500 then "" else "_" +:+ size) +:+ ".jpg".
Proof.
  unfold URL, SizeMedium500.
  destruct (String.eqb_spec size "-") as [E|_]; cbn; reflexivity.
Qed.

(** ** The registry *)

Lemma set_tally_tally (a : Image.t) : set_tally (tally a) a = a.
Proof. now destruct a. Qed.

Lemma set_tally_idem (t u : Z * Z) (a : Image.t) :
  set_tally t (set_tally u a) = set_tally t a.
Proof. reflexivity. Qed.

Lemma ID_set_tally (t : Z * Z) (a : Image.t) :
  Image.ID (set_tally t a) = Image.ID a.
Proof. reflexivity. Qed.

Lemma tally_set_tally (t : Z * Z) (a : Image.t) : tally (set_tally t a) = t.
Proof. now destruct t. Qed.

Lemma ID_sync ims i k a : Image.ID (sync ims i k a) = Image.ID a.
Proof. unfold sync. now destruct (_ && _). Qed.

Lemma ID_voted b i : Image.ID (voted b i) = Image.ID i.
Proof. now destruct b. Qed.

Lemma tally_voted b i : tally (voted b i) = tally_after b 1 (tally i).
Proof. now destruct b. Qed.

Lemma sync_self ims i k : sync ims i k i = i.
Proof. unfold sync. destruct (_ && _); [apply set_tally_tally | reflexivity]. Qed.

Lemma sync_cons_ne im rest i k a :
  im ≠ k → sync (im :: rest) i k a = sync rest i k a.
Proof.
  intros Hne. unfold sync.
  replace (bool_decide (k ∈ im :: rest)) with (bool_decide (k ∈ rest)); [reflexivity|].
  apply bool_decide_ext. rewrite elem_of_cons. intuition congruence.
Qed.

Lemma sync_cons_here im rest i a :
  sync (im :: rest) i im a =
    if String.eqb (Image.ID a) (Image.ID i) then set_tally (tally i) a else a.
Proof.
  unfold sync. now rewrite bool_decide_eq_true_2 by apply list_elem_of_here.
Qed.

(** The loop of [Update] over valid addresses yields the heap in which each
    cell of the registry with the id of [image] holds its counts. *)
Lemma Update_loop_sync (ims : list loc) :
  ∀ (h : list Image.t) (l : loc) (i : Image.t),
    (∀ r, r ∈ ims → is_Some (h !! r)) →
    h !! l = Some i →
    Update_loop h ims (Some l) = Some (imap (sync ims i) h).
Proof.
  induction ims as [|im rest IH]; intros h l i Hval Hl.
  - simpl. f_equal. apply list_eq. intros k.
    rewrite list_lookup_imap. destruct (h !! k) as [a|]; [|reflexivity].
    simpl. unfold sync. rewrite bool_decide_eq_false_2; [reflexivity|].
    apply not_elem_of_nil.
  - destruct (Hval im) as [a Ha]; [apply list_elem_of_here|].
    assert (Him : (im < length h)%nat) by (eapply lookup_lt_Some; eauto).
    assert (Hrest : ∀ h1 : list Image.t, length h1 = length h →
                          ∀ r, r ∈ rest → is_Some (h1 !! r)).
    { intros h1 Hlen r Hr. apply lookup_lt_is_Some. rewrite Hlen.
      apply lookup_lt_is_Some, Hval. now apply list_elem_of_further. }
    cbn [Update_loop load mbind option_bind]. rewrite Ha, Hl. cbn.
    destruct (String.eqb_spec (Image.ID a) (Image.ID i)) as [Hid|Hid].
    + rewrite list_lookup_insert_eq by exact Him. cbn.
      assert (Hi1 : <[im:=set_UpVotes (Image.UpVotes i) a]> h !! l
                    = Some (if decide (im = l) then set_UpVotes (Image.UpVotes i) i else i)).
      { destruct (decide (im = l)) as [->|Hne].
        - rewrite list_lookup_insert_eq by exact Him. congruence.
        - now rewrite list_lookup_insert_ne. }
      rewrite Hi1. cbn. rewrite list_insert_insert_eq.
      replace (Image.DownVotes (if decide (im = l) then set_UpVotes (Image.UpVotes i) i else i))
        with (Image.DownVotes i) by (now destruct (decide (im = l))).
      change (set_DownVotes (Image.DownVotes i) (set_UpVotes (Image.UpVotes i) a))
        with (set_tally (tally i) a).
      rewrite (IH _ l i).
      * f_equal. apply list_eq. intros k. rewrite !list_lookup_imap.
        destruct (decide (im = k)) as [<-|Hne].
        -- rewrite list_lookup_insert_eq by exact Him. rewrite Ha. cbn. f_equal.
           rewrite sync_cons_here. unfold sync. rewrite ID_set_tally.
           destruct (String.eqb_spec (Image.ID a) (Image.ID i)); [|contradiction].
           now destruct (bool_decide (im ∈ rest)).
        -- rewrite list_lookup_insert_ne by exact Hne.
           destruct (h !! k) as [b|]; [|reflexivity]. cbn. f_equal.
           now rewrite sync_cons_ne.
      * apply Hrest. apply length_insert.
      * destruct (decide (im = l)) as [->|Hne].
        -- rewrite list_lookup_insert_eq by exact Him.
           assert (a = i) by congruence. subst a. now rewrite set_tally_tally.
        -- now rewrite list_lookup_insert_ne.
    + rewrite (IH h l i); [|now apply Hrest|exact Hl].
      f_equal. apply list_eq. intros k. rewrite !list_lookup_imap.
      destruct (h !! k) as [b|] eqn:Hk; [|reflexivity]. cbn. f_equal.
      destruct (decide (im = k)) as [<-|Hne].
      * assert (b = a) by congruence. subst b.
        rewrite sync_cons_here. unfold sync.
        destruct (String.eqb_spec (Image.ID a) (Image.ID i)); [contradiction|].
        now rewrite andb_false_r.
      * now rewrite sync_cons_ne.
Qed.

(** [Update] on a valid address, in closed form. *)
Lemma Update_closed (s : State) (l : loc) (i : Image.t) (b : bool) :
  wf s → heap s !! l = Some i →
  Update s (Some l) b =
    Some (mkState (imap (sync (images s) (voted b i)) (<[l := voted b i]> (heap s)))
                  (images s),
          tally (voted b i)).
Proof.
  intros Hwf Hl. unfold Update. cbn. rewrite Hl. cbn.
  assert (Hlt : (l < length (heap s))%nat) by (eapply lookup_lt_Some; eauto).
  replace (if b then <[l:=set_UpVotes (GoInt.incr (Image.UpVotes i)) i]> (heap s)
           else <[l:=set_DownVotes (GoInt.decr (Image.DownVotes i)) i]> (heap s))
    with (<[l := voted b i]> (heap s)) by (now destruct b).
  rewrite (Update_loop_sync (images s) _ l (voted b i)).
  - cbn. rewrite list_lookup_imap, list_lookup_insert_eq by exact Hlt.
    cbn. now rewrite sync_self.
  - intros r Hr. apply list_lookup_insert_is_Some. now apply Hwf.
  - now apply list_lookup_insert_eq.
Qed.

(** The cells after [Update], one by one. *)
Lemma Update_heap (s s1 : State) (l : loc) (i : Image.t) (b : bool) (t : Z * Z) :
  wf s → heap s !! l = Some i →
  Update s (Some l) b = Some (s1, t) →
  images s1 = images s ∧ t = tally (voted b i) ∧
  heap s1 !! l = Some (voted b i) ∧
  ∀ k, k ≠ l → heap s1 !! k = sync (images s) (voted b i) k <$> heap s !! k.
Proof.
  intros Hwf Hl HU. rewrite (Update_closed s l i b Hwf Hl) in HU.
  injection HU as <- <-. cbn.
  assert (Hlt : (l < length (heap s))%nat) by (eapply lookup_lt_Some; eauto).
  repeat split.
  - rewrite list_lookup_imap, list_lookup_insert_eq by exact Hlt.
    cbn. now rewrite sync_self.
  - intros k Hk. rewrite list_lookup_imap, list_lookup_insert_ne by congruence.
    reflexivity.
Qed.

Lemma Update_wf (s s1 : State) (l : loc) (i : Image.t) (b : bool) (t : Z * Z) :
  wf s → heap s !! l = Some i →
  Update s (Some l) b = Some (s1, t) → wf s1.
Proof.
  intros Hwf Hl HU.
  destruct (Update_heap s s1 l i b t Hwf Hl HU) as (Hims & _ & Hl1 & Hk).
  intros r Hr. rewrite Hims in Hr. destruct (decide (r = l)) as [->|Hne].
  - now rewrite Hl1.
  - rewrite (Hk r Hne). destruct (Hwf r Hr) as [a ->]. now eexists.
Qed.

(** [Find] looks at the ids of the entries only. *)
Lemma Find_loop_ext (h h1 : list Image.t) (ims : list loc) (ID : string) :
  (∀ r, r ∈ ims → Image.ID <$> h !! r = Image.ID <$> h1 !! r) →
  Find_loop h ims ID = Find_loop h1 ims ID.
Proof.
  induction ims as [|im rest IH]; intros Hext; [reflexivity|].
  cbn. pose proof (Hext im (list_elem_of_here _ _)) as Him.
  destruct (h !! im) as [a|], (h1 !! im) as [a1|]; cbn in *; try congruence.
  injection Him as ->.
  destruct (String.eqb (Image.ID a1) ID); [reflexivity|].
  apply IH. in_tail Hext.
Qed.

Lemma Find_loop_found (h : list Image.t) (ims : list loc) (ID : string) (p : ptr) :
  Find_loop h ims ID = Some (p, true) →
  ∃ r a, p = Some r ∧ r ∈ ims ∧ h !! r = Some a ∧ Image.ID a = ID.
Proof.
  induction ims as [|im rest IH]; cbn; [congruence|].
  destruct (h !! im) as [a|] eqn:Ha; cbn; [|congruence].
  destruct (String.eqb_spec (Image.ID a) ID) as [Hid|Hid].
  - intros [= <-]. exists im, a. split_and!; try done. apply list_elem_of_here.
  - intros H. destruct (IH H) as (r & a1 & -> & Hr & Ha1 & Hid1).
    exists r, a1. split_and!; try done. now apply list_elem_of_further.
Qed.

Lemma Find_loop_saved (h : list Image.t) (ims : list loc) (ID : string) :
  (∀ r, r ∈ ims → is_Some (h !! r)) →
  (∃ r a, r ∈ ims ∧ h !! r = Some a ∧ Image.ID a = ID) →
  ∃ r, Find_loop h ims ID = Some (Some r, true).
Proof.
  induction ims as [|im rest IH]; intros Hval (r & a & Hr & Ha & Hid).
  - now apply not_elem_of_nil in Hr.
  - cbn. destruct (Hval im (list_elem_of_here _ _)) as [b Hb]. rewrite Hb. cbn.
    destruct (String.eqb_spec (Image.ID b) ID) as [E|E]; [now eexists|].
    apply IH.
    + in_tail Hval.
    + exists r, a. split_and!; try done.
      apply elem_of_cons in Hr as [->|Hr]; [congruence|done].
Qed.

Lemma Find_loop_fresh (h : list Image.t) (ims : list loc) (ID : string) :
  (∀ r, r ∈ ims → is_Some (h !! r)) →
  (∀ r a, r ∈ ims → h !! r = Some a → Image.ID a ≠ ID) →
  Find_loop h ims ID = Some (None, false).
Proof.
  induction ims as [|im rest IH]; intros Hval Hfresh; [reflexivity|].
  cbn. destruct (Hval im (list_elem_of_here _ _)) as [b Hb]. rewrite Hb. cbn.
  destruct (String.eqb_spec (Image.ID b) ID) as [E|E].
  - exfalso. eapply Hfresh; [apply list_elem_of_here|exact Hb|exact E].
  - apply IH.
    + in_tail Hval.
    + in_tail2 Hfresh.
Qed.

(** The loop of [Save] finds the id exactly when it is saved. *)
Lemma Save_loop_saved (h : list Image.t) (ims : list loc) (l : loc) (i : Image.t) :
  (∀ r, r ∈ ims → is_Some (h !! r)) → h !! l = Some i →
  (∃ r a, r ∈ ims ∧ h !! r = Some a ∧ Image.ID a = Image.ID i) →
  Save_loop h ims (Some l) = Some true.
Proof.
  induction ims as [|im rest IH]; intros Hval Hl (r & a & Hr & Ha & Hid).
  - now apply not_elem_of_nil in Hr.
  - cbn. destruct (Hval im (list_elem_of_here _ _)) as [b Hb]. rewrite Hb, Hl. cbn.
    destruct (String.eqb_spec (Image.ID b) (Image.ID i)) as [E|E]; [reflexivity|].
    apply IH; [|exact Hl|].
    + in_tail Hval.
    + exists r, a. split_and!; try done.
      apply elem_of_cons in Hr as [->|Hr]; [congruence|done].
Qed.

Lemma Save_loop_fresh (h : list Image.t) (ims : list loc) (l : loc) (i : Image.t) :
  (∀ r, r ∈ ims → is_Some (h !! r)) → h !! l = Some i →
  (∀ r a, r ∈ ims → h !! r = Some a → Image.ID a ≠ Image.ID i) →
  Save_loop h ims (Some l) = Some false.
Proof.
  induction ims as [|im rest IH]; intros Hval Hl Hfresh; [reflexivity|].
  cbn. destruct (Hval im (list_elem_of_here _ _)) as [b Hb]. rewrite Hb, Hl. cbn.
  destruct (String.eqb_spec (Image.ID b) (Image.ID i)) as [E|E].
  - exfalso. eapply Hfresh; [apply list_elem_of_here|exact Hb|exact E].
  - apply IH; [|exact Hl|].
    + in_tail Hval.
    + in_tail2 Hfresh.
Qed.

(** An image whose id is not saved is no entry of the registry. *)
Lemma fresh_not_entry (s : State) (l : loc) (i : Image.t) :
  heap s !! l = Some i → ¬ saved s (Image.ID i) → l ∉ images s.
Proof. intros Hl Hns Hin. apply Hns. now exists l, i. Qed.

Lemma incr_changes (x : Z) : GoInt.in_range x → GoInt.incr x ≠ x.
Proof.
  unfold GoInt.in_range, GoInt.incr, GoInt.wrap, GoInt.MinInt, GoInt.MaxInt, GoInt.intSize.
  change (2 ^ (64 - 1)) with 9223372036854775808.
  change (2 ^ 64) with 18446744073709551616.
  intros H. Z.to_euclidean_division_equations. lia.
Qed.

Lemma decr_changes (x : Z) : GoInt.in_range x → GoInt.decr x ≠ x.
Proof.
  unfold GoInt.in_range, GoInt.decr, GoInt.wrap, GoInt.MinInt, GoInt.MaxInt, GoInt.intSize.
  change (2 ^ (64 - 1)) with 9223372036854775808.
  change (2 ^ 64) with 18446744073709551616.
  intros H. Z.to_euclidean_division_equations. lia.
Qed.

Lemma voted_changes (b : bool) (i : Image.t) : int_counts i → voted b i ≠ i.
Proof.
  intros [Hu Hd] E. destruct i as [id ti th la u d]. destruct b; cbn in *.
  - injection E as E. now apply (incr_changes u).
  - injection E as E. now apply (decr_changes d).
Qed.

Lemma entries_ext (h h1 : list Image.t) (ims : list loc) :
  (∀ r, r ∈ ims → h1 !! r = h !! r) →
  omap (λ l, h1 !! l) ims = omap (λ l, h !! l) ims.
Proof.
  induction ims as [|im rest IH]; intros Hext; [reflexivity|].
  cbn. rewrite (Hext im) by apply list_elem_of_here.
  rewrite IH; [reflexivity|]. in_tail Hext.
Qed.

(** C10. [Update] with an image whose id no entry of the registry has leaves
    the registry as it was: [All] returns the same addresses, every entry
    holds the same image, [Find] answers every id as before.  The image
    passed in is changed all the same, by one vote, and the pair returned is
    that of its new counts. *)
Theorem Update_unsaved_frame (s : State) (l : loc) (i : Image.t) (isUpvote : bool) :
  wf s → heap s !! l = Some i → int_counts i → ¬ saved s (Image.ID i) →
  ∃ s1 : State,
    Update s (Some l) isUpvote = Some (s1, tally_after isUpvote 1 (tally i)) ∧
    All s1 = All s ∧
    (∀ r, r ∈ All s → heap s1 !! r = heap s !! r) ∧
    entries s1 = entries s ∧
    (∀ ID, Find s1 ID = Find s ID) ∧
    heap s1 !! l = Some (voted isUpvote i) ∧
    voted isUpvote i ≠ i ∧
    tally (voted isUpvote i) = tally_after isUpvote 1 (tally i).
Proof.
  intros Hwf Hl Hint Hfresh.
  pose proof (Update_closed s l i isUpvote Hwf Hl) as HU.
  set (s1 := mkState _ _) in HU.
  destruct (Update_heap s s1 l i isUpvote _ Hwf Hl HU) as (Hims & _ & Hl1 & Hk).
  assert (Hsame : ∀ r, r ∈ images s → heap s1 !! r = heap s !! r).
  { intros r Hr. assert (Hne : r ≠ l).
    { intros ->. now apply (fresh_not_entry s l i Hl Hfresh). }
    rewrite (Hk r Hne). destruct (heap s !! r) as [a|] eqn:Ha; [|reflexivity].
    cbn. f_equal. unfold sync. rewrite ID_voted.
    destruct (String.eqb_spec (Image.ID a) (Image.ID i)) as [E|E].
    - exfalso. apply Hfresh. now exists r, a.
    - now rewrite andb_false_r. }
  exists s1. rewrite <- tally_voted. split_and!; try done.
  - unfold entries. rewrite Hims. now apply entries_ext.
  - intros ID. unfold Find. rewrite Hims. apply Find_loop_ext.
    intros r Hr. now rewrite Hsame.
  - now apply voted_changes.
Qed.

Lemma Find_loop_app_fresh (h : list Image.t) (ims rest : list loc) (ID : string) :
  (∀ r, r ∈ ims → is_Some (h !! r)) →
  (∀ r a, r ∈ ims → h !! r = Some a → Image.ID a ≠ ID) →
  Find_loop h (ims ++ rest) ID = Find_loop h rest ID.
Proof.
  induction ims as [|im ims IH]; intros Hval Hfresh; [reflexivity|].
  cbn. destruct (Hval im (list_elem_of_here _ _)) as [b Hb]. rewrite Hb. cbn.
  destruct (String.eqb_spec (Image.ID b) ID) as [E|E].
  - exfalso. eapply Hfresh; [apply list_elem_of_here|exact Hb|exact E].
  - apply IH.
    + in_tail Hval.
    + in_tail2 Hfresh.
Qed.

(** [Save] of an image whose id is not saved: a copy in a new cell, entered
    last in the registry. *)
Lemma Save_fresh (s : State) (l : loc) (i : Image.t) :
  wf s → heap s !! l = Some i → ¬ saved s (Image.ID i) →
  Save s (Some l) =
    Some (mkState (heap s ++ [i]) (images s ++ [length (heap s)]), None).
Proof.
  intros Hwf Hl Hfresh. unfold Save.
  rewrite (Save_loop_fresh (heap s) (images s) l i Hwf Hl).
  - cbn. rewrite Hl. reflexivity.
  - intros r a Hr Ha E. apply Hfresh. now exists r, a.
Qed.

(** [Save] of an image whose id is saved changes nothing. *)
Lemma Save_saved (s : State) (l : loc) (i : Image.t) :
  wf s → heap s !! l = Some i → saved s (Image.ID i) →
  Save s (Some l) = Some (s, None).
Proof.
  intros Hwf Hl Hsaved. unfold Save.
  now rewrite (Save_loop_saved (heap s) (images s) l i Hwf Hl Hsaved).
Qed.

Lemma saved_or_not (s : State) (ID : string) : saved s ID ∨ ¬ saved s ID.
Proof.
  unfold saved. induction (images s) as [|im rest IH].
  - right. intros (r & a & Hr & _). now apply not_elem_of_nil in Hr.
  - destruct IH as [(r & a & Hr & Ha & E)|IH].
    + left. exists r, a. split_and!; try done. now apply list_elem_of_further.
    + destruct (heap s !! im) as [b|] eqn:Hb.
      * destruct (decide (Image.ID b = ID)) as [E|E].
        -- left. exists im, b. split_and!; try done. apply list_elem_of_here.
        -- right. intros (r & a & Hr & Ha & E1).
           apply elem_of_cons in Hr as [->|Hr]; [congruence|].
           apply IH. now exists r, a.
      * right. intros (r & a & Hr & Ha & E1).
        apply elem_of_cons in Hr as [->|Hr]; [congruence|].
        apply IH. now exists r, a.
Qed.

(** C6. [Save] enters a copy.  For an image at [l] whose id is not yet
    saved, [Save] succeeds and [Find] returns an entry at another address
    than [l], holding the image as it was saved; whatever the caller then
    assigns to its own image at [l] (without calling [Update]), the entry
    still holds the saved image, [Find] still returns it, and every entry of
    the registry is unchanged. *)
Theorem Save_inserts_copy (s : State) (l : loc) (i v : Image.t) :
  wf s → heap s !! l = Some i → ¬ saved s (Image.ID i) →
  ∃ (s1 : State) (r : loc),
    Save s (Some l) = Some (s1, None) ∧
    Find s1 (Image.ID i) = Some (Some r, true) ∧
    r ≠ l ∧
    heap s1 !! r = Some i ∧
    heap (assign s1 l v) !! l = Some v ∧
    heap (assign s1 l v) !! r = Some i ∧
    Find (assign s1 l v) (Image.ID i) = Some (Some r, true) ∧
    All (assign s1 l v) = All s1 ∧
    entries (assign s1 l v) = entries s1.
Proof.
  intros Hwf Hl Hfresh.
  assert (Hlt : (l < length (heap s))%nat) by (eapply lookup_lt_Some; eauto).
  assert (Hnew : (heap s ++ [i]) !! length (heap s) = Some i)
    by now apply list_lookup_middle.
  assert (Hval : ∀ r, r ∈ images s → is_Some ((heap s ++ [i]) !! r)).
  { intros r Hr. destruct (Hwf r Hr) as [a Ha]. exists a. now apply lookup_app_l_Some. }
  assert (Hfr : ∀ r a, r ∈ images s → (heap s ++ [i]) !! r = Some a →
                       Image.ID a ≠ Image.ID i).
  { intros r a Hr Ha E. apply Hfresh. exists r, a. split_and!; try done.
    destruct (Hwf r Hr) as [b Hb].
    rewrite (lookup_app_l_Some _ _ _ _ Hb) in Ha. congruence. }
  assert (Hfind : Find_loop (heap s ++ [i]) (images s ++ [length (heap s)]) (Image.ID i)
                  = Some (Some (length (heap s)), true)).
  { rewrite Find_loop_app_fresh by assumption. cbn. rewrite Hnew. cbn.
    now rewrite String.eqb_refl. }
  assert (Hother : ∀ r, r ∈ images s ++ [length (heap s)] →
                        <[l:=v]> (heap s ++ [i]) !! r = (heap s ++ [i]) !! r).
  { intros r Hr. apply list_lookup_insert_ne. intros <-.
    apply elem_of_app in Hr as [Hr|Hr].
    - now apply (fresh_not_entry s l i Hl Hfresh).
    - apply list_elem_of_singleton in Hr. lia. }
  exists (mkState (heap s ++ [i]) (images s ++ [length (heap s)])), (length (heap s)).
  split_and!.
  - now apply Save_fresh.
  - exact Hfind.
  - lia.
  - exact Hnew.
  - cbn. apply list_lookup_insert_eq. rewrite length_app. cbn. lia.
  - cbn. rewrite list_lookup_insert_ne by lia. exact Hnew.
  - unfold Find, assign. cbn. rewrite <- Hfind. apply Find_loop_ext.
    intros r Hr. now rewrite Hother.
  - reflexivity.
  - unfold entries, assign. cbn. now apply entries_ext.
Qed.

Lemma saved_entries (s : State) (ID : string) :
  saved s ID ↔ ID ∈ Image.ID <$> entries s.
Proof.
  unfold saved, entries. rewrite list_elem_of_fmap. split.
  - intros (r & a & Hr & Ha & E). exists a. split; [done|].
    apply list_elem_of_omap. now exists r.
  - intros (a & E & Ha). apply list_elem_of_omap in Ha as (r & Hr & Ha).
    now exists r, a.
Qed.

Lemma entries_Save_fresh (s : State) (i : Image.t) :
  wf s →
  entries (mkState (heap s ++ [i]) (images s ++ [length (heap s)])) = entries s ++ [i].
Proof.
  intros Hwf. unfold entries. cbn. rewrite omap_app. f_equal.
  - apply entries_ext. intros r Hr. destruct (Hwf r Hr) as [a Ha].
    rewrite Ha. now apply lookup_app_l_Some.
  - cbn. now rewrite list_lookup_middle.
Qed.

Lemma count_fresh (l : list Image.t) (ID : string) :
  ID ∉ Image.ID <$> l →
  List.filter (λ a, String.eqb (Image.ID a) ID) l = [].
Proof.
  induction l as [|a l IH]; [reflexivity|]. cbn. intros Hn.
  apply not_elem_of_cons in Hn as [Hne Hn].
  destruct (String.eqb_spec (Image.ID a) ID); [congruence|]. now apply IH.
Qed.

Lemma count_unique (l : list Image.t) (ID : string) :
  NoDup (Image.ID <$> l) → ID ∈ Image.ID <$> l →
  length (List.filter (λ a, String.eqb (Image.ID a) ID) l) = 1%nat.
Proof.
  induction l as [|a l IH]; cbn; intros Hnd Hin.
  - now apply not_elem_of_nil in Hin.
  - apply NoDup_cons in Hnd as [Hna Hnd].
    destruct (String.eqb_spec (Image.ID a) ID) as [E|E].
    + cbn. f_equal. rewrite count_fresh; [reflexivity|]. now rewrite <- E.
    + apply elem_of_cons in Hin as [Hin|Hin]; [congruence|]. now apply IH.
Qed.

(** C5. Ids are unique in the registry.  In a registry without duplicate
    ids, two calls of [Save] with images of one id both return [nil] and
    leave exactly one entry with that id; the second call changes nothing.
    When the id was not saved before, that entry holds the first image,
    field by field; when it was, the registry is the one before the calls. *)
Theorem Save_twice_one_entry (s : State) (l1 l2 : loc) (i1 i2 : Image.t) :
  wf s → unique_ids s →
  heap s !! l1 = Some i1 → heap s !! l2 = Some i2 →
  Image.ID i1 = Image.ID i2 →
  ∃ s1 : State,
    Save s (Some l1) = Some (s1, None) ∧
    Save s1 (Some l2) = Some (s1, None) ∧
    count_id s1 (Image.ID i1) = 1%nat ∧
    unique_ids s1 ∧
    (¬ saved s (Image.ID i1) →
       entries s1 = entries s ++ [i1] ∧
       ∃ r, Find s1 (Image.ID i1) = Some (Some r, true) ∧ heap s1 !! r = Some i1) ∧
    (saved s (Image.ID i1) → s1 = s).
Proof.
  intros Hwf Huniq Hl1 Hl2 Hid.
  destruct (saved_or_not s (Image.ID i1)) as [Hs|Hfresh].
  - exists s. split_and!.
    + now apply Save_saved with i1.
    + apply Save_saved with i2; try done. now rewrite <- Hid.
    + unfold count_id. apply count_unique; [exact Huniq|]. now apply saved_entries.
    + exact Huniq.
    + intros Hn. contradiction.
    + reflexivity.
  - set (s1 := mkState (heap s ++ [i1]) (images s ++ [length (heap s)])).
    assert (Hent : entries s1 = entries s ++ [i1]) by now apply entries_Save_fresh.
    assert (Hnew : heap s1 !! length (heap s) = Some i1)
      by now apply list_lookup_middle.
    assert (Hwf1 : wf s1).
    { intros r Hr. apply elem_of_app in Hr as [Hr|Hr].
      - destruct (Hwf r Hr) as [a Ha]. exists a. now apply lookup_app_l_Some.
      - apply list_elem_of_singleton in Hr as ->. now exists i1. }
    assert (Hnin : Image.ID i1 ∉ Image.ID <$> entries s).
    { intros Hin. now apply Hfresh, saved_entries. }
    exists s1. split_and!.
    + now apply Save_fresh.
    + apply Save_saved with i2; try done.
      * now apply lookup_app_l_Some.
      * rewrite <- Hid. exists (length (heap s)), i1. split_and!; try done.
        apply elem_of_app. right. apply list_elem_of_here.
    + unfold count_id. rewrite Hent, List.filter_app, length_app.
      rewrite count_fresh by exact Hnin. cbn. now rewrite String.eqb_refl.
    + unfold unique_ids. rewrite Hent, fmap_app. apply NoDup_app. split_and!.
      * exact Huniq.
      * intros x Hx Hx1. apply list_elem_of_singleton in Hx1 as ->. contradiction.
      * apply NoDup_singleton.
    + intros _. split; [exact Hent|]. exists (length (heap s)). split; [|exact Hnew].
      unfold Find, s1. cbn. rewrite Find_loop_app_fresh.
      * cbn. rewrite list_lookup_middle by reflexivity. cbn. now rewrite String.eqb_refl.
      * intros r Hr. destruct (Hwf r Hr) as [a Ha]. exists a. now apply lookup_app_l_Some.
      * intros r a Hr Ha E. apply Hfresh. exists r, a. split_and!; try done.
        destruct (Hwf r Hr) as [b Hb].
        rewrite (lookup_app_l_Some _ _ _ _ Hb) in Ha. congruence.
    + intros Hs. contradiction.
Qed.

(** ** Votes *)

Lemma tally_after_S (b : bool) (n : nat) (i : Image.t) :
  tally_after b n (tally (voted b i)) = tally_after b (S n) (tally i).
Proof.
  destruct b; cbn [tally_after tally voted set_UpVotes set_DownVotes fst snd
                   Image.UpVotes Image.DownVotes]; f_equal.
  - unfold GoInt.incr. rewrite wrap_wrap_add. f_equal. lia.
  - unfold GoInt.decr.
    replace (GoInt.wrap (Image.DownVotes i - 1) - Z.of_nat n)
      with (GoInt.wrap (Image.DownVotes i + (-1)) + (- Z.of_nat n)) by (f_equal; lia).
    rewrite wrap_wrap_add. f_equal. lia.
Qed.

Lemma tally_after_0 (b : bool) (i : Image.t) :
  int_counts i → tally_after b 0 (tally i) = tally i.
Proof.
  intros [Hu Hd]. destruct b; cbn; unfold tally; f_equal.
  - rewrite Z.add_0_r. now apply wrap_small.
  - rewrite Z.sub_0_r. now apply wrap_small.
Qed.

Lemma voted_int_counts (b : bool) (i : Image.t) : int_counts i → int_counts (voted b i).
Proof.
  intros [Hu Hd]. destruct b; split; cbn; try done; apply wrap_in_range.
Qed.

(** [N] votes in a row on the image at [l], cell by cell. *)
Lemma Update_times_cells (b : bool) (l : loc) (N : nat) :
  ∀ (s : State) (i : Image.t),
    wf s → heap s !! l = Some i → int_counts i →
    ∃ sN : State,
      Update_times N s (Some l) b = Some sN ∧
      images sN = images s ∧
      heap sN !! l = Some (set_tally (tally_after b N (tally i)) i) ∧
      ∀ k a, k ≠ l → heap s !! k = Some a →
        heap sN !! k =
          Some (if negb (Nat.eqb N 0) && bool_decide (k ∈ images s)
                   && String.eqb (Image.ID a) (Image.ID i)
                then set_tally (tally_after b N (tally i)) a else a).
Proof.
  induction N as [|N IH]; intros s i Hwf Hl Hint.
  - exists s. split_and!; try done.
    now rewrite tally_after_0, set_tally_tally.
  - pose proof (Update_closed s l i b Hwf Hl) as HU.
    set (s1 := mkState _ _) in HU.
    destruct (Update_heap s s1 l i b _ Hwf Hl HU) as (Hims & _ & Hl1 & Hk).
    pose proof (Update_wf s s1 l i b _ Hwf Hl HU) as Hwf1.
    destruct (IH s1 (voted b i) Hwf1 Hl1 (voted_int_counts b i Hint))
      as (sN & Hrun & HimsN & HlN & HkN).
    exists sN. cbn [Update_times]. rewrite HU. cbn. split_and!.
    + exact Hrun.
    + congruence.
    + rewrite HlN, tally_after_S. now destruct b.
    + intros k a Hne Ha. rewrite (HkN k (sync (images s) (voted b i) k a) Hne).
      2:{ rewrite (Hk k Hne), Ha. reflexivity. }
      f_equal. rewrite Hims, ID_sync, ID_voted, tally_after_S. cbn [Nat.eqb negb andb].
      unfold sync. rewrite ID_voted, tally_voted.
      destruct (bool_decide (k ∈ images s) && String.eqb (Image.ID a) (Image.ID i)) eqn:E.
      * destruct N as [|N]; cbn [Nat.eqb negb andb].
        -- reflexivity.
        -- destruct (bool_decide (k ∈ images s)); [|done]. cbn in E |- *. now rewrite E.
      * destruct (negb (Nat.eqb N 0)); cbn [andb]; [|reflexivity].
        destruct (bool_decide (k ∈ images s)); cbn in E |- *; [now rewrite E|reflexivity].
Qed.

Lemma registry_tally_after (b : bool) (l : loc) (N : nat) (s sN : State) (i : Image.t) :
  wf s → heap s !! l = Some i → (0 < N)%nat →
  images sN = images s →
  heap sN !! l = Some (set_tally (tally_after b N (tally i)) i) →
  (∀ k a, k ≠ l → heap s !! k = Some a →
     heap sN !! k =
       Some (if negb (Nat.eqb N 0) && bool_decide (k ∈ images s)
                && String.eqb (Image.ID a) (Image.ID i)
             then set_tally (tally_after b N (tally i)) a else a)) →
  registry_tally sN (Image.ID i) (tally_after b N (tally i)).
Proof.
  intros Hwf Hl HN Hims HlN HkN r a1 Hr Ha1 Hid.
  rewrite Hims in Hr. destruct (decide (r = l)) as [->|Hne].
  - rewrite HlN in Ha1. injection Ha1 as <-. apply tally_set_tally.
  - destruct (Hwf r Hr) as [a Ha]. rewrite (HkN r a Hne Ha) in Ha1.
    injection Ha1 as <-.
    replace (Nat.eqb N 0) with false in * by (symmetry; apply Nat.eqb_neq; lia).
    rewrite bool_decide_eq_true_2 in * by exact Hr. cbn [negb andb] in *.
    destruct (String.eqb_spec (Image.ID a) (Image.ID i)) as [E|E].
    + apply tally_set_tally.
    + contradiction.
Qed.

(** C1, amended.  For an image that is saved in the registry,
    [Update(image, isUpvote)] adds one to the image's up-vote count when
    [isUpvote] holds and takes one from its down-vote count otherwise, in
    [int] arithmetic; every entry of the registry with that id then has the
    new counts, [Find] returns an entry with them, and the pair returned is
    the new pair.  After [N] votes in a row through that same image, the
    image and (for [N > 0]) the entries of its id have the count the image
    had before plus [N] for up-votes, minus [N] for down-votes: exactly so
    as long as the sum is an [int], and wrapped to 64 bits beyond. *)
Theorem Update_tally (s : State) (l : loc) (i : Image.t) (isUpvote : bool) :
  wf s → heap s !! l = Some i → int_counts i → saved s (Image.ID i) →
  (∃ s1 : State,
     Update s (Some l) isUpvote = Some (s1, tally_after isUpvote 1 (tally i)) ∧
     tally_after isUpvote 1 (tally i) =
       (if isUpvote then (GoInt.incr (Image.UpVotes i), Image.DownVotes i)
        else (Image.UpVotes i, GoInt.decr (Image.DownVotes i))) ∧
     heap s1 !! l = Some (set_tally (tally_after isUpvote 1 (tally i)) i) ∧
     registry_tally s1 (Image.ID i) (tally_after isUpvote 1 (tally i)) ∧
     ∃ r, Find s1 (Image.ID i) = Some (Some r, true) ∧
          tally <$> heap s1 !! r = Some (tally_after isUpvote 1 (tally i))) ∧
  (∀ N : nat, ∃ sN : State,
     Update_times N s (Some l) isUpvote = Some sN ∧
     heap sN !! l = Some (set_tally (tally_after isUpvote N (tally i)) i) ∧
     ((0 < N)%nat →
      registry_tally sN (Image.ID i) (tally_after isUpvote N (tally i)))) ∧
  (∀ N : nat, Image.UpVotes i + Z.of_nat N <= GoInt.MaxInt →
     tally_after true N (tally i) = (Image.UpVotes i + Z.of_nat N, Image.DownVotes i)) ∧
  (∀ N : nat, GoInt.MinInt <= Image.DownVotes i - Z.of_nat N →
     tally_after false N (tally i) = (Image.UpVotes i, Image.DownVotes i - Z.of_nat N)).
Proof.
  intros Hwf Hl Hint Hsaved. split_and!.
  - destruct (Update_times_cells isUpvote l 1 s i Hwf Hl Hint)
      as (s1 & Hrun & Hims & Hl1 & Hk).
    cbn [Update_times] in Hrun.
    pose proof (Update_closed s l i isUpvote Hwf Hl) as HU.
    rewrite HU in Hrun. cbn in Hrun. injection Hrun as Hs1.
    rewrite Hs1 in HU. rewrite tally_voted in HU.
    pose proof (registry_tally_after isUpvote l 1 s s1 i Hwf Hl ltac:(lia) Hims Hl1 Hk)
      as Hreg.
    assert (Hwf1 : wf s1).
    { eapply Update_wf; [exact Hwf|exact Hl|exact HU]. }
    assert (Hsaved1 : saved s1 (Image.ID i)).
    { destruct Hsaved as (r & a & Hr & Ha & E). destruct (decide (r = l)) as [->|Hne].
      - exists l, (set_tally (tally_after isUpvote 1 (tally i)) i).
        split_and!; try done. now rewrite Hims.
      - eexists r, _. split_and!; [now rewrite Hims|apply (Hk r a Hne Ha)|].
        now destruct (_ && _). }
    exists s1. split_and!; try done.
    destruct (Find_loop_saved (heap s1) (images s1) (Image.ID i) Hwf1 Hsaved1)
      as [r Hfind].
    exists r. split; [exact Hfind|].
    destruct (Find_loop_found _ _ _ _ Hfind) as (r1 & a & [= <-] & Hr & Ha & E).
    rewrite Ha. cbn. f_equal. now apply (Hreg r a).
  - intros N.
    destruct (Update_times_cells isUpvote l N s i Hwf Hl Hint)
      as (sN & Hrun & Hims & HlN & Hk).
    exists sN. split_and!; try done.
    intros HN. now apply (registry_tally_after isUpvote l N s sN i).
  - intros N HN. unfold tally_after, tally. cbn [fst snd]. f_equal.
    apply wrap_small. destruct Hint as [[Hlo Hhi] _]. split; lia.
  - intros N HN. unfold tally_after, tally. cbn [fst snd]. f_equal.
    apply wrap_small. destruct Hint as [_ [Hlo Hhi]]. split; lia.
Qed.

(** Checks by evaluation of the premises of the statements. *)
Lemma wf_check (s : State) :
  forallb (λ r, bool_decide (is_Some (heap s !! r))) (images s) = true → wf s.
Proof.
  intros H r Hr. rewrite forallb_forall in H.
  apply list_elem_of_In, H in Hr. now apply bool_decide_eq_true in Hr.
Qed.

Lemma saved_check (s : State) (ID : string) (r : loc) :
  wf s → Find s ID = Some (Some r, true) → saved s ID.
Proof.
  intros _ H. destruct (Find_loop_found _ _ _ _ H) as (r1 & a & _ & Hr & Ha & E).
  now exists r1, a.
Qed.

Lemma not_saved_check (s : State) (ID : string) :
  wf s → Find s ID = Some (None, false) → ¬ saved s ID.
Proof.
  intros Hwf H Hs. destruct (Find_loop_saved _ _ _ Hwf Hs) as [r Hr].
  unfold Find in H. congruence.
Qed.

Lemma int_counts_check (a : Image.t) :
  (GoInt.MinInt <=? Image.UpVotes a) && (Image.UpVotes a <=? GoInt.MaxInt) &&
  (GoInt.MinInt <=? Image.DownVotes a) && (Image.DownVotes a <=? GoInt.MaxInt) = true →
  int_counts a.
Proof. unfold int_counts, GoInt.in_range. lia. Qed.

(** ** Runs of the registry *)

Lemma Save_loop_Some (h : list Image.t) (ims : list loc) (p : ptr) (b : bool) :
  ims ≠ [] → Save_loop h ims p = Some b → is_Some (load h p).
Proof.
  destruct ims as [|im rest]; [congruence|]. intros _. cbn.
  destruct (h !! im); cbn; [|congruence].
  destruct (load h p); cbn; [now eexists|congruence].
Qed.

Lemma Save_Some (s s1 : State) (p : ptr) (e : error) :
  Save s p = Some (s1, e) → ∃ l i, p = Some l ∧ heap s !! l = Some i.
Proof.
  unfold Save. intros H.
  assert (Hload : is_Some (load (heap s) p)).
  { destruct (images s) as [|im rest] eqn:Hims.
    - cbn in H. unfold cloneImage in H.
      destruct (load (heap s) p); [now eexists|discriminate].
    - destruct (Save_loop (heap s) (im :: rest) p) as [b|] eqn:HS; [|discriminate].
      now apply (Save_loop_Some _ (im :: rest) _ b). }
  destruct Hload as [i Hi]. destruct p as [l|]; [|discriminate]. now exists l, i.
Qed.

Lemma Update_Some (s s1 : State) (p : ptr) (b : bool) (t : Z * Z) :
  Update s p b = Some (s1, t) → ∃ l i, p = Some l ∧ heap s !! l = Some i.
Proof.
  unfold Update. destruct p as [l|]; [|discriminate]. cbn.
  destruct (heap s !! l) as [i|] eqn:Hl; cbn; [|discriminate].
  intros _. now exists l, i.
Qed.

Lemma counts_within_mono (n m : Z) (a : Image.t) :
  n <= m → counts_within n a → counts_within m a.
Proof. unfold counts_within. lia. Qed.

Lemma counts_within_voted (n : Z) (b : bool) (i : Image.t) :
  n + 1 <= GoInt.MaxInt → counts_within n i → counts_within (n + 1) (voted b i).
Proof.
  unfold counts_within. intros Hn [Hu Hd].
  assert (GoInt.MaxInt = 9223372036854775807) as HM by reflexivity.
  assert (GoInt.MinInt = -9223372036854775808) as Hm by reflexivity.
  destruct b; cbn.
  - unfold GoInt.incr. rewrite wrap_small; [lia|]. unfold GoInt.in_range. lia.
  - unfold GoInt.decr. rewrite wrap_small; [lia|]. unfold GoInt.in_range. lia.
Qed.

Lemma ids_ext (h h1 : list Image.t) (ims : list loc) :
  (∀ r, r ∈ ims → Image.ID <$> h1 !! r = Image.ID <$> h !! r) →
  Image.ID <$> omap (λ l, h1 !! l) ims = Image.ID <$> omap (λ l, h !! l) ims.
Proof.
  induction ims as [|im rest IH]; intros Hext; [reflexivity|]. cbn.
  pose proof (Hext im (list_elem_of_here _ _)) as Him.
  assert (Hrest : Image.ID <$> omap (λ l, h1 !! l) rest
                  = Image.ID <$> omap (λ l, h !! l) rest).
  { apply IH. in_tail Hext. }
  destruct (h1 !! im) as [a1|], (h !! im) as [a|]; cbn in *; try congruence.
Qed.

Lemma ids_Update (s s1 : State) (l : loc) (i : Image.t) (b : bool) (t : Z * Z) :
  wf s → heap s !! l = Some i → Update s (Some l) b = Some (s1, t) →
  Image.ID <$> entries s1 = Image.ID <$> entries s.
Proof.
  intros Hwf Hl HU.
  destruct (Update_heap s s1 l i b t Hwf Hl HU) as (Hims & _ & Hl1 & Hk).
  unfold entries. rewrite Hims. apply ids_ext. intros r _.
  destruct (decide (r = l)) as [->|Hne].
  - rewrite Hl1, Hl. cbn. now rewrite ID_voted.
  - rewrite (Hk r Hne). destruct (heap s !! r) as [a|]; [|reflexivity].
    cbn. now rewrite ID_sync.
Qed.

(** One operation keeps the registry well formed and its ids unique. *)
Lemma step_wf_unique (s s1 : State) (o : op) :
  wf s → unique_ids s → step s o = Some s1 → wf s1 ∧ unique_ids s1.
Proof.
  intros Hwf Huniq Hstep. destruct o as [photo|p|p b]; cbn in Hstep.
  - injection Hstep as <-. split.
    + intros r Hr. cbn in *. destruct (Hwf r Hr) as [a Ha]. exists a.
      now apply lookup_app_l_Some.
    + unfold unique_ids, entries in *. cbn.
      erewrite entries_ext; [exact Huniq|]. intros r Hr.
      destruct (Hwf r Hr) as [a Ha]. rewrite Ha. now apply lookup_app_l_Some.
  - destruct (Save s p) as [[s2 e]|] eqn:HS; [|discriminate].
    cbn in Hstep. injection Hstep as ->.
    destruct (Save_Some s s1 p e HS) as (l & i & -> & Hl).
    destruct (saved_or_not s (Image.ID i)) as [Hs|Hf].
    + rewrite (Save_saved s l i Hwf Hl Hs) in HS. now injection HS as <- <-.
    + rewrite (Save_fresh s l i Hwf Hl Hf) in HS. injection HS as <- <-. split.
      * intros r Hr. cbn in *. apply elem_of_app in Hr as [Hr|Hr].
        -- destruct (Hwf r Hr) as [a Ha]. exists a. now apply lookup_app_l_Some.
        -- apply list_elem_of_singleton in Hr as ->. exists i.
           now apply list_lookup_middle.
      * unfold unique_ids. rewrite entries_Save_fresh by exact Hwf.
        rewrite fmap_app. apply NoDup_app. split_and!.
        -- exact Huniq.
        -- intros x Hx Hx1. apply list_elem_of_singleton in Hx1 as ->.
           now apply Hf, saved_entries.
        -- apply NoDup_singleton.
  - destruct (Update s p b) as [[s2 t]|] eqn:HU; [|discriminate].
    cbn in Hstep. injection Hstep as ->.
    destruct (Update_Some s s1 p b t HU) as (l & i & -> & Hl). split.
    + eapply Update_wf; eauto.
    + unfold unique_ids. now rewrite (ids_Update s s1 l i b t).
Qed.

(** One operation keeps the invariant, with one more vote allowed for. *)
Lemma step_invariant (n : Z) (s s1 : State) (o : op) :
  0 <= n → n + 1 <= GoInt.MaxInt →
  invariant n s → step s o = Some s1 → invariant (n + 1) s1.
Proof.
  intros Hn0 Hn (Hwf & Huniq & Hcounts) Hstep.
  destruct (step_wf_unique s s1 o Hwf Huniq Hstep) as [Hwf1 Huniq1].
  split; [exact Hwf1|]. split; [exact Huniq1|].
  destruct o as [photo|p|p b]; cbn in Hstep.
  - injection Hstep as <-. intros a Ha. cbn in Ha. apply elem_of_app in Ha as [Ha|Ha].
    + eapply counts_within_mono; [|now apply Hcounts]. lia.
    + apply list_elem_of_singleton in Ha as ->. unfold counts_within. cbn. lia.
  - destruct (Save s p) as [[s2 e]|] eqn:HS; [|discriminate].
    cbn in Hstep. injection Hstep as ->.
    destruct (Save_Some s s1 p e HS) as (l & i & -> & Hl).
    intros a Ha. eapply counts_within_mono with n; [lia|].
    destruct (saved_or_not s (Image.ID i)) as [Hs|Hf].
    + rewrite (Save_saved s l i Hwf Hl Hs) in HS. injection HS as <- _.
      now apply Hcounts.
    + rewrite (Save_fresh s l i Hwf Hl Hf) in HS. injection HS as <- _. cbn in Ha.
      apply elem_of_app in Ha as [Ha|Ha]; [now apply Hcounts|].
      apply list_elem_of_singleton in Ha as ->. apply Hcounts.
      apply list_elem_of_lookup. now exists l.
  - destruct (Update s p b) as [[s2 t]|] eqn:HU; [|discriminate].
    cbn in Hstep. injection Hstep as ->.
    destruct (Update_Some s s1 p b t HU) as (l & i & -> & Hl).
    destruct (Update_heap s s1 l i b t Hwf Hl HU) as (Hims & _ & Hl1 & Hk).
    assert (Hi : counts_within n i).
    { apply Hcounts, list_elem_of_lookup. now exists l. }
    intros a1 Ha1. apply list_elem_of_lookup in Ha1 as [k Hk1].
    destruct (decide (k = l)) as [->|Hne].
    + rewrite Hl1 in Hk1. injection Hk1 as <-. now apply counts_within_voted.
    + rewrite (Hk k Hne) in Hk1. destruct (heap s !! k) as [a|] eqn:Ha; [|discriminate].
      cbn in Hk1. injection Hk1 as <-. unfold sync. destruct (_ && _).
      * pose proof (counts_within_voted n b i Hn Hi) as Hv.
        unfold counts_within in *. cbn. exact Hv.
      * eapply counts_within_mono with n; [lia|].
        apply Hcounts, list_elem_of_lookup. now exists k.
Qed.

Lemma run_invariant (ops : list op) :
  ∀ (n : Z) (s s1 : State),
    0 <= n → n + Z.of_nat (length ops) <= GoInt.MaxInt →
    invariant n s → run s ops = Some s1 →
    invariant (n + Z.of_nat (length ops)) s1.
Proof.
  induction ops as [|o ops IH]; intros n s s1 Hn0 Hn Hinv Hrun.
  - cbn in *. injection Hrun as <-. now rewrite Z.add_0_r.
  - cbn [run] in Hrun. destruct (step s o) as [s2|] eqn:Hstep; [|discriminate].
    cbn in Hrun. cbn [length] in *.
    replace (n + Z.of_nat (S (length ops))) with ((n + 1) + Z.of_nat (length ops)) in * by lia.
    apply (IH (n + 1) s2 s1); [lia|lia| |exact Hrun].
    apply (step_invariant n s s2 o); [lia|lia|exact Hinv|exact Hstep].
Qed.

Lemma invariant_init : invariant 0 NewImageManager.
Proof.
  split_and!.
  - intros r Hr. now apply not_elem_of_nil in Hr.
  - apply NoDup_nil_2.
  - intros a Ha. now apply not_elem_of_nil in Ha.
Qed.

Lemma entries_in_heap (s : State) (a : Image.t) : a ∈ entries s → a ∈ heap s.
Proof.
  unfold entries. intros Ha. apply list_elem_of_omap in Ha as (r & _ & Hr).
  apply list_elem_of_lookup. now exists r.
Qed.

(** A registry reached from the empty one is well formed and has no
    duplicate id. *)
Lemma reachable_wf_unique (s : State) : reachable s → wf s ∧ unique_ids s.
Proof.
  intros [ops Hrun]. revert Hrun.
  assert (H0 : wf NewImageManager ∧ unique_ids NewImageManager).
  { destruct invariant_init as (H1 & H2 & _). now split. }
  revert H0. generalize NewImageManager as s0. revert s.
  induction ops as [|o ops IH]; intros s s0 H0 Hrun.
  - cbn in Hrun. now injection Hrun as <-.
  - cbn [run] in Hrun. destruct (step s0 o) as [s2|] eqn:Hstep; [|discriminate].
    cbn in Hrun. apply (IH s s2); [|exact Hrun].
    destruct H0 as [Hwf Huniq]. now apply (step_wf_unique s0 s2 o).
Qed.

(** C4 as stated fails: a down-vote on a new image makes the down-vote count
    of its entry -1. *)
Lemma downvote_count_negative :
  ¬ (∀ s : State, reachable s →
       ∀ a, a ∈ entries s → 0 <= Image.UpVotes a ∧ 0 <= Image.DownVotes a).
Proof.
  intros H.
  assert (R : reachable state_downvoted) by (exists ops_downvote; reflexivity).
  destruct (H state_downvoted R
              (Image.mk "1" "puppy" "http://farm9.static.flickr.com/server/1_secret_t.jpg"
                        "http://farm9.static.flickr.com/server/1_secret_b.jpg" 0 (-1)))
    as [_ Hd].
  - vm_compute. apply list_elem_of_here.
  - cbn in Hd. lia.
Qed.

Lemma run_app (ops1 ops2 : list op) :
  ∀ s, run s (ops1 ++ ops2) = (s1 ← run s ops1; run s1 ops2).
Proof.
  induction ops1 as [|o ops1 IH]; intros s; [reflexivity|].
  cbn [run app]. destruct (step s o) as [s1|]; [apply IH|reflexivity].
Qed.

Lemma run_replicate_Update (N : nat) (p : ptr) (b : bool) :
  ∀ s, run s (replicate N (OpUpdate p b)) = Update_times N s p b.
Proof.
  induction N as [|N IH]; intros s; [reflexivity|].
  cbn [replicate run step Update_times].
  destruct (Update s p b) as [[s1 t]|]; [apply IH|reflexivity].
Qed.

(** Why the amended C4 bounds the length of the run: 2^63 up-votes on one
    image wrap its count around to the smallest [int]. *)
Lemma upvotes_wrap_around :
  ∃ s a, run NewImageManager ops_overflow = Some s ∧
         a ∈ entries s ∧ Image.UpVotes a = GoInt.MinInt.
Proof.
  unfold ops_overflow. remember (Z.to_nat (2 ^ 63)) as N eqn:HN.
  set (i := Image.mk "1" "puppy" "http://farm9.static.flickr.com/server/1_secret_t.jpg"
                     "http://farm9.static.flickr.com/server/1_secret_b.jpg" 0 0).
  set (sA := mkState [i; i] [1%nat]).
  assert (HA : run NewImageManager [OpNewImage photo1; OpSave (Some 0%nat)] = Some sA)
    by reflexivity.
  assert (Hwf : wf sA) by (apply wf_check; reflexivity).
  destruct (Update_times_cells true 0 N sA i Hwf eq_refl (int_counts_check i eq_refl))
    as (sN & Hrun & Hims & _ & Hk).
  specialize (Hk 1%nat i ltac:(lia) eq_refl).
  assert (HN0 : Nat.eqb N 0 = false) by (apply Nat.eqb_neq; lia).
  rewrite HN0 in Hk. cbn [negb andb] in Hk.
  change (bool_decide (1%nat ∈ images sA) && String.eqb (Image.ID i) (Image.ID i))
    with true in Hk.
  eexists sN, _. split_and!.
  - rewrite run_app, HA. cbn [mbind option_bind]. rewrite run_replicate_Update. exact Hrun.
  - unfold entries. apply list_elem_of_omap. exists 1%nat. split; [|exact Hk].
    rewrite Hims. apply list_elem_of_here.
  - cbn [set_tally set_DownVotes set_UpVotes Image.UpVotes tally_after tally fst snd].
    replace (Z.of_nat N) with (2 ^ 63) by lia. reflexivity.
Qed.

(** C4, amended.  In every registry reached from the empty one by a run of
    [NewImage], [Save] and [Update] operations (of fewer than 2^63), every
    entry's up-vote count is at least zero and every entry's down-vote count
    is at most zero; neither is further from zero than the length of the
    run. *)
Theorem reachable_count_signs (ops : list op) (s : State) :
  run NewImageManager ops = Some s →
  Z.of_nat (length ops) <= GoInt.MaxInt →
  ∀ a, a ∈ entries s →
    0 <= Image.UpVotes a <= Z.of_nat (length ops) ∧
    - Z.of_nat (length ops) <= Image.DownVotes a <= 0.
Proof.
  intros Hrun Hlen a Ha.
  destruct (run_invariant ops 0 NewImageManager s ltac:(lia) ltac:(lia)
              invariant_init Hrun) as (_ & _ & Hcounts).
  apply (Hcounts a). now apply entries_in_heap.
Qed.

Lemma reachable_count_signs_witness :
  run NewImageManager ops_downvote = Some state_downvoted ∧
  ∀ a, a ∈ entries state_downvoted →
    0 <= Image.UpVotes a <= 3 ∧ - 3 <= Image.DownVotes a <= 0.
Proof.
  split; [reflexivity|].
  apply (reachable_count_signs ops_downvote state_downvoted).
  - reflexivity.
  - vm_compute. discriminate.
Defined.

(** C1 as stated fails, in two ways.  Votes on one id do not add up when
    they go through different images of that id: on the saved image of the
    scenario, an up-vote through the entry and then one through the image
    the caller saved leave the entry with 1 up-vote, not 0 + 2; no count is
    near the bounds of [int] here.  And one up-vote does not add one to the
    largest [int]: the count becomes the smallest [int]. *)
Lemma votes_not_additive :
  ¬ (∀ (s sN : State) (ID : string) (ps : list loc) (t : Z * Z),
       wf s → saved s ID → images_of s ID ps →
       (∀ a, a ∈ heap s → int_counts a) →
       registry_tally s ID t →
       t.1 + Z.of_nat (length ps) <= GoInt.MaxInt →
       run s (votes_through ps true) = Some sN →
       registry_tally sN ID (t.1 + Z.of_nat (length ps), t.2)) ∧
  ¬ (∀ (s : State) (l : loc) (i : Image.t),
       wf s → heap s !! l = Some i → int_counts i → saved s (Image.ID i) →
       ∃ s1 : State,
         Update s (Some l) true =
           Some (s1, (Image.UpVotes i + 1, Image.DownVotes i))).
Proof.
  split.
  - intros H.
    assert (Hwf : wf state1_saved) by (apply wf_check; reflexivity).
    assert (Hs : saved state1_saved "1")
      by (apply (saved_check state1_saved "1" 1 Hwf); reflexivity).
    assert (Hreg : registry_tally state1_voted_twice "1" (0 + 2, 0)).
    { apply (H state1_saved state1_voted_twice "1" [1%nat; 0%nat] (0, 0) Hwf Hs).
      - intros p Hp. exists image1. split; [|reflexivity].
        apply list_elem_of_In in Hp. destruct Hp as [<-|[<-|[]]]; reflexivity.
      - intros a Ha. apply list_elem_of_In in Ha.
        destruct Ha as [<-|[<-|[]]]; apply int_counts_check; reflexivity.
      - intros r a Hr Ha _. apply list_elem_of_In in Hr. destruct Hr as [<-|[]].
        cbn in Ha. now injection Ha as <-.
      - vm_compute. discriminate.
      - reflexivity. }
    specialize (Hreg 1%nat (Image.mk "1" "puppy" "t.jpg" "b.jpg" 1 0)
                  ltac:(apply list_elem_of_here) eq_refl eq_refl).
    discriminate Hreg.
  - intros H.
    assert (Hwf : wf state_max_saved) by (apply wf_check; reflexivity).
    assert (Hs : saved state_max_saved "1")
      by (apply (saved_check state_max_saved "1" 1 Hwf); reflexivity).
    destruct (H state_max_saved 1%nat image_max Hwf eq_refl
                (int_counts_check image_max eq_refl) Hs) as [s1 HU].
    vm_compute in HU. discriminate HU.
Qed.

(** ** The scenario of the specification *)

(** [Save(Image{id:"1", up:0, down:0})], then [Update] of that image with an
    up-vote returns (1, 0), and [Find("1")] returns an entry with (1, 0). *)
Lemma Update_tally_witness :
  Save state1 (Some 0%nat) = Some (state1_saved, None) ∧
  saved state1_saved "1" ∧
  ∃ s1 : State,
    Update state1_saved (Some 0%nat) true = Some (s1, (1, 0)) ∧
    ∃ r, Find s1 "1" = Some (Some r, true) ∧ tally <$> heap s1 !! r = Some (1, 0).
Proof.
  assert (Hwf : wf state1_saved) by (apply wf_check; reflexivity).
  assert (Hs : saved state1_saved "1")
    by (apply (saved_check state1_saved "1" 1 Hwf); reflexivity).
  split; [reflexivity|]. split; [exact Hs|].
  destruct (Update_tally state1_saved 0 image1 true Hwf eq_refl
              (int_counts_check image1 eq_refl) Hs)
    as ((s1 & HU & _ & _ & _ & r & Hfind & Hr) & _).
  exists s1. split; [exact HU|]. exists r. split; [exact Hfind|exact Hr].
Defined.

Lemma Update_unsaved_frame_witness :
  ¬ saved state1 "1" ∧
  ∃ s1 : State,
    Update state1 (Some 0%nat) false = Some (s1, (0, -1)) ∧
    All s1 = [] ∧ heap s1 !! 0%nat = Some (Image.mk "1" "puppy" "t.jpg" "b.jpg" 0 (-1)).
Proof.
  assert (Hwf : wf state1) by (apply wf_check; reflexivity).
  assert (Hn : ¬ saved state1 "1") by (apply not_saved_check; [exact Hwf|reflexivity]).
  split; [exact Hn|].
  destruct (Update_unsaved_frame state1 0 image1 false Hwf eq_refl
              (int_counts_check image1 eq_refl) Hn)
    as (s1 & HU & HAll & _ & _ & _ & Hl & _).
  exists s1. split; [exact HU|]. split; [exact HAll|exact Hl].
Defined.

Lemma Save_inserts_copy_witness :
  ¬ saved state1 "1" ∧
  ∃ (s1 : State) (r : loc),
    Save state1 (Some 0%nat) = Some (s1, None) ∧
    Find s1 "1" = Some (Some r, true) ∧ r ≠ 0%nat ∧
    heap (assign s1 0 (Image.mk "1" "changed" "" "" 7 7)) !! r = Some image1.
Proof.
  assert (Hwf : wf state1) by (apply wf_check; reflexivity).
  assert (Hn : ¬ saved state1 "1") by (apply not_saved_check; [exact Hwf|reflexivity]).
  split; [exact Hn|].
  destruct (Save_inserts_copy state1 0 image1 (Image.mk "1" "changed" "" "" 7 7)
              Hwf eq_refl Hn)
    as (s1 & r & HS & Hfind & Hne & _ & _ & Hr & _).
  exists s1, r. split_and!; assumption.
Defined.

Lemma Save_twice_one_entry_witness :
  unique_ids state1 ∧
  ∃ s1 : State,
    Save state1 (Some 0%nat) = Some (s1, None) ∧
    Save s1 (Some 0%nat) = Some (s1, None) ∧
    count_id s1 "1" = 1%nat.
Proof.
  assert (Hwf : wf state1) by (apply wf_check; reflexivity).
  assert (Hu : unique_ids state1) by apply NoDup_nil_2.
  split; [exact Hu|].
  destruct (Save_twice_one_entry state1 0 0 image1 image1 Hwf Hu eq_refl eq_refl eq_refl)
    as (s1 & HS1 & HS2 & Hc & _).
  exists s1. split_and!; assumption.
Defined.

(** ** The summary of a search *)

Lemma GetPuppiesResponse_closed (s : State) (sr : SearchResponse.t) :
  GetPuppiesResponse s sr =
    match (strconv.Atoi (SearchResponse.Total sr)).2 with
    | Some _ => None
    | None =>
        Some (PuppiesResponse.mk (strconv.Atoi (SearchResponse.Page sr)).1
                                 (strconv.Atoi (SearchResponse.Pages sr)).1
                                 (strconv.Atoi (SearchResponse.PerPage sr)).1
                                 (strconv.Atoi (SearchResponse.Total sr)).1
                                 (images s))
    end.
Proof.
  unfold GetPuppiesResponse.
  destruct (strconv.Atoi (SearchResponse.Page sr)) as [page e1],
           (strconv.Atoi (SearchResponse.Pages sr)) as [pages e2],
           (strconv.Atoi (SearchResponse.PerPage sr)) as [perPage e3],
           (strconv.Atoi (SearchResponse.Total sr)) as [total [e4|]]; reflexivity.
Qed.

Lemma ParseUint_loop_error (s : string) :
  ∀ n v e, strconv.ParseUint_loop s n = (v, Some e) →
    (e = strconv.ErrSyntax ∧ v = 0) ∨ (e = strconv.ErrRange ∧ v = strconv.maxUint64).
Proof.
  induction s as [|c s IH]; intros n v e; cbn.
  - discriminate.
  - destruct (strconv.digit c) as [d|]; [|intros [= <- <-]; now left].
    destruct (_ <=? n); [intros [= <- <-]; now right|].
    destruct (_ <? _); [intros [= <- <-]; now right|]. apply IH.
Qed.

Lemma ParseUint_error (s : string) (v : Z) (e : strconv.NumError) :
  strconv.ParseUint s = (v, Some e) →
  (e = strconv.ErrSyntax ∧ v = 0) ∨ (e = strconv.ErrRange ∧ v = strconv.maxUint64).
Proof.
  destruct s as [|c s]; [intros [= <- <-]; now left|]. apply ParseUint_loop_error.
Qed.

(** Beside an error, [Atoi] returns 0 (syntax) or a bound of [int] (range). *)
Lemma Atoi_error (s : string) (v : Z) (e : strconv.NumError) :
  strconv.Atoi s = (v, Some e) →
  (e = strconv.ErrSyntax ∧ v = 0) ∨
  (e = strconv.ErrRange ∧ (v = GoInt.MaxInt ∨ v = GoInt.MinInt)).
Proof.
  unfold strconv.Atoi, strconv.ParseInt. destruct s as [|c s]; [intros [= <- <-]; now left|].
  destruct (strconv.ParseUint _) as [un [[]|]] eqn:HU.
  - intros [= <- <-]. now left.
  - destruct (_ && _); [intros [= <- <-]; right; split; [done|now left]|].
    destruct (_ && _); [intros [= <- <-]; right; split; [done|now right]|].
    discriminate.
  - destruct (_ && _); [intros [= <- <-]; right; split; [done|now left]|].
    destruct (_ && _); [intros [= <- <-]; right; split; [done|now right]|].
    discriminate.
Qed.

Lemma digit_bound (c : ascii) (d : Z) : strconv.digit c = Some d → 0 <= d <= 9.
Proof.
  unfold strconv.digit. destruct (_ && _) eqn:E; [|discriminate].
  intros [= <-]. lia.
Qed.

(** Fewer than 20 digits never overflow: a text with a byte that is no digit
    within its first 20 bytes ends the loop with a syntax error. *)
Lemma ParseUint_loop_syntax (s : string) :
  ∀ (n : Z) (k : nat),
    0 <= n < 10 ^ Z.of_nat k →
    strconv.all_digits s = false →
    (k + String.length s <= 20)%nat →
    strconv.ParseUint_loop s n = (0, Some strconv.ErrSyntax).
Proof.
  induction s as [|c s IH]; intros n k Hn Hnd Hlen; [discriminate|].
  cbn [strconv.ParseUint_loop]. cbn [strconv.all_digits] in Hnd.
  destruct (strconv.digit c) as [d|] eqn:Hd; [|reflexivity].
  pose proof (digit_bound c d Hd) as Hdb.
  rewrite bool_decide_eq_true_2 in Hnd by now eexists. cbn [andb] in Hnd.
  assert (Hs : (1 <= String.length s)%nat) by (destruct s; [discriminate|cbn; lia]).
  cbn [String.length] in Hlen.
  assert (Hk : 10 ^ Z.of_nat k <= 10 ^ 18) by (apply Z.pow_le_mono_r; lia).
  assert (Hk1 : 10 ^ Z.of_nat (S k) = 10 * 10 ^ Z.of_nat k).
  { rewrite Nat2Z.inj_succ. apply Z.pow_succ_r. lia. }
  change (10 ^ 18) with 1000000000000000000 in Hk.
  change (strconv.maxUint64 / 10 + 1) with 1844674407370955162.
  change strconv.maxUint64 with 18446744073709551615.
  destruct (Z.leb_spec 1844674407370955162 n); [lia|].
  destruct (Z.ltb_spec 18446744073709551615 (n * 10 + d)); [lia|].
  apply (IH (n * 10 + d) (S k)); [lia|exact Hnd|lia].
Qed.

(** A text of at most 20 bytes that is no numeric string converts to 0 with
    a syntax error. *)
Lemma Atoi_nonnumeric (s : string) :
  strconv.numeric s = false → (String.length s <= 20)%nat →
  strconv.Atoi s = (0, Some strconv.ErrSyntax).
Proof.
  unfold strconv.Atoi, strconv.ParseInt, strconv.numeric.
  destruct s as [|c s]; [reflexivity|]. cbn [String.length]. intros Hn Hlen.
  assert (HU : strconv.ParseUint (if Ascii.eqb c "+" || Ascii.eqb c "-"
                                  then s else String c s)
               = (0, Some strconv.ErrSyntax)).
  { destruct (Ascii.eqb c "+" || Ascii.eqb c "-").
    - destruct s as [|c1 s1]; [reflexivity|].
      apply (ParseUint_loop_syntax _ 0 0); [cbn; lia|exact Hn|cbn in *; lia].
    - apply (ParseUint_loop_syntax _ 0 0); [cbn; lia|exact Hn|cbn in *; lia]. }
  now rewrite HU.
Qed.

Lemma shown_as_Atoi (field : string) : shown_as field (strconv.Atoi field).1.
Proof.
  unfold shown_as. split; [reflexivity|]. split.
  - intros Hn Hlen. now rewrite Atoi_nonnumeric.
  - destruct (strconv.Atoi field) as [v [e|]] eqn:HA; cbn.
    + destruct (Atoi_error field v e HA) as [[-> ->]|[-> H]]; split; done.
    + split; done.
Qed.

Lemma all_digits_no_syntax_error (s : string) :
  strconv.all_digits s = true →
  ∀ n, (strconv.ParseUint_loop s n).2 ≠ Some strconv.ErrSyntax.
Proof.
  induction s as [|c s IH]; cbn; intros H n; [done|].
  apply andb_true_iff in H as [Hc Hs]. apply bool_decide_eq_true in Hc as [d Hd].
  rewrite Hd. destruct (_ <=? n); [done|].
  destruct (_ <? _); [done|]. now apply IH.
Qed.

(** A numeric string never fails with a syntax error. *)
Lemma numeric_no_syntax_error (s : string) :
  strconv.numeric s = true → (strconv.Atoi s).2 ≠ Some strconv.ErrSyntax.
Proof.
  unfold strconv.Atoi, strconv.ParseInt, strconv.numeric.
  destruct s as [|c s]; [discriminate|]. intros H.
  assert (HU : (strconv.ParseUint (if Ascii.eqb c "+" || Ascii.eqb c "-"
                                   then s else String c s)).2
               ≠ Some strconv.ErrSyntax).
  { destruct (Ascii.eqb c "+" || Ascii.eqb c "-").
    - destruct s as [|c1 s1]; [discriminate|]. now apply all_digits_no_syntax_error.
    - now apply all_digits_no_syntax_error. }
  destruct (strconv.ParseUint _) as [un [[]|]]; cbn in *; try congruence.
  - repeat (destruct (_ && _)); cbn [snd]; congruence.
  - repeat (destruct (_ && _)); cbn [snd]; congruence.
Qed.

(** C2 fails on the code: the page is no number, and the summary is returned
    all the same, with 0 for the page. *)
Theorem GetPuppiesResponse_bad_page :
  (strconv.Atoi (SearchResponse.Page response_bad_page)).2 = Some strconv.ErrSyntax ∧
  GetPuppiesResponse state1_saved response_bad_page
    = Some (PuppiesResponse.mk 0 2 10 15 [1%nat]).
Proof. split; reflexivity. Qed.

(** C9 as stated fails: a page that is no number can show as the largest
    [int] instead of 0. *)
Lemma nonnumeric_field_not_zero :
  ¬ (∀ (s : State) (sr : SearchResponse.t) (r : PuppiesResponse.t),
       GetPuppiesResponse s sr = Some r →
       (strconv.numeric (SearchResponse.Page sr) = false → PuppiesResponse.Page r = 0) ∧
       (strconv.numeric (SearchResponse.Pages sr) = false → PuppiesResponse.Pages r = 0) ∧
       (strconv.numeric (SearchResponse.PerPage sr) = false → PuppiesResponse.PerPage r = 0)).
Proof.
  intros H.
  destruct (H state1_saved response_long_page
              (PuppiesResponse.mk 9223372036854775807 2 10 15 [1%nat]) eq_refl)
    as [Hpage _].
  specialize (Hpage eq_refl). discriminate Hpage.
Qed.

(** C9, amended.  [GetPuppiesResponse] returns [nil] exactly when the
    conversion of [Total] fails.  When it succeeds the summary is returned,
    with the total, the current list of images, and for [Page], [Pages] and
    [PerPage] the number [Atoi] returns: the value of the field when it
    converts, 0 when the field is no numeric string of at most 20 characters
    or fails with a syntax error, and the largest or the smallest [int] when
    it fails with a range error. *)
Theorem GetPuppiesResponse_total_decides (s : State) (sr : SearchResponse.t) :
  (GetPuppiesResponse s sr = None ↔ (strconv.Atoi (SearchResponse.Total sr)).2 ≠ None) ∧
  (∀ total, strconv.Atoi (SearchResponse.Total sr) = (total, None) →
     ∃ r : PuppiesResponse.t,
       GetPuppiesResponse s sr = Some r ∧
       PuppiesResponse.Total r = total ∧
       PuppiesResponse.Images r = images s ∧
       shown_as (SearchResponse.Page sr) (PuppiesResponse.Page r) ∧
       shown_as (SearchResponse.Pages sr) (PuppiesResponse.Pages r) ∧
       shown_as (SearchResponse.PerPage sr) (PuppiesResponse.PerPage r)).
Proof.
  rewrite GetPuppiesResponse_closed. split.
  - destruct (strconv.Atoi (SearchResponse.Total sr)) as [t [e|]]; cbn.
    + split; [discriminate|reflexivity].
    + split; [discriminate|congruence].
  - intros total Ht. rewrite Ht. cbn. eexists. split; [reflexivity|]. cbn.
    split_and!; try reflexivity; apply shown_as_Atoi.
Qed.

(** ** The vote store *)

Lemma filter_none {A : Type} (f : A → bool) (l : list A) :
  (∀ x, x ∈ l → f x = false) → List.filter f l = [].
Proof.
  induction l as [|x l IH]; intros H; [reflexivity|]. cbn.
  rewrite (H x) by apply list_elem_of_here.
  apply IH. intros y Hy. apply H. now apply list_elem_of_further.
Qed.

Lemma filter_all {A : Type} (f : A → bool) (l : list A) :
  (∀ x, x ∈ l → f x = true) → List.filter f l = l.
Proof.
  induction l as [|x l IH]; intros H; [reflexivity|]. cbn.
  rewrite (H x) by apply list_elem_of_here. f_equal.
  apply IH. intros y Hy. apply H. now apply list_elem_of_further.
Qed.

Lemma Permutation_filter {A : Type} (f : A → bool) (l l1 : list A) :
  Permutation l l1 → Permutation (List.filter f l) (List.filter f l1).
Proof.
  induction 1 as [|x l l1 _ IH|x y l|l l1 l2 _ IH1 _ IH2]; cbn.
  - constructor.
  - destruct (f x); [now constructor|exact IH].
  - destruct (f x), (f y); try reflexivity. constructor.
  - now transitivity (List.filter f l1).
Qed.

Lemma Split_chars_Repeat (n : nat) :
  Split_chars (Repeat "?" (S n)) = "?" :: Split_chars (Repeat "?" n).
Proof. reflexivity. Qed.

Lemma Join_cons2 (a b : string) (l : list string) (sep : string) :
  Join (a :: b :: l) sep = a +:+ sep +:+ Join (b :: l) sep.
Proof. reflexivity. Qed.

(** The text built for [n] ids is read back as a list of [n] placeholders. *)
Lemma placeholders_read (n : nat) :
  ∃ rest, Join (Split_chars (Repeat "?" (S n))) "," +:+ ")" = String "?" rest ∧
          sql.more_placeholders rest = Some n.
Proof.
  induction n as [|n (rest & E & Hm)].
  - exists ")". split; reflexivity.
  - exists (String "," (String "?" rest)). split.
    + rewrite Split_chars_Repeat in E |- *. rewrite Split_chars_Repeat.
      rewrite Join_cons2.
      set (J := Join ("?" :: Split_chars (Repeat "?" n)) ",") in *.
      change (("?" +:+ "," +:+ J) +:+ ")") with (String "?" (String "," (J +:+ ")"))).
      now rewrite E.
    + cbn [sql.more_placeholders]. now rewrite Hm.
Qed.

Lemma value_eqb_eq (a b : sql.value) : sql.value_eqb a b = true → a = b.
Proof.
  destruct a, b; cbn; try discriminate.
  - intros H. apply Z.eqb_eq in H. now subst.
  - intros H. apply String.eqb_eq in H. now subst.
Qed.

Lemma value_eqb_Integer (z : Z) : sql.value_eqb (sql.Integer z) (sql.Integer z) = true.
Proof. apply Z.eqb_refl. Qed.

Lemma wf_entries (s : State) :
  wf s → Forall2 (λ p a, load (heap s) p = Some a) (Some <$> All s) (entries s).
Proof.
  unfold wf, All, entries. induction (images s) as [|im rest IH]; intros Hwf.
  - constructor.
  - cbn. destruct (Hwf im (list_elem_of_here _ _)) as [a Ha]. rewrite Ha.
    constructor; [exact Ha|]. apply IH. intros r Hr. apply Hwf.
    now apply list_elem_of_further.
Qed.

(** The program on any engine [e]. *)
Section Store.

Variable e : sql.Engine.

(** How the engine reads the text built for [ids]. *)
Lemma parse_FindOldPuppies_query_closed (ids : list string) :
  sql.parse e (FindOldPuppies_query ids) =
    match length ids with
    | O => if sql.empty_list_ok e then Some (sql.StmtSelectIn O) else None
    | S n =>
        if Z.of_nat (S n) <=? sql.max_variable_number
        then Some (sql.StmtSelectIn (S n)) else None
    end.
Proof.
  unfold sql.parse, FindOldPuppies_query.
  set (q := Join (Split_chars (Repeat "?" (length ids))) ",").
  change (Sprintf "select * from votes where puppy_id in (%s)" [q])
    with (sql.select_head +:+ (q +:+ ")")).
  change (String.eqb (sql.select_head +:+ (q +:+ ")")) sql.insert_text) with false.
  change (sql.strip_prefix sql.select_head (sql.select_head +:+ (q +:+ ")")))
    with (Some (q +:+ ")")).
  cbn [mbind option_bind]. subst q. destruct ids as [|i ids].
  - reflexivity.
  - cbn [length]. destruct (placeholders_read (length ids)) as (rest & -> & Hm).
    cbn [sql.placeholder_list]. rewrite Hm. reflexivity.
Qed.

Lemma parse_FindOldPuppies_query (ids : list string) :
  (ids = [] → sql.empty_list_ok e = true) →
  Z.of_nat (length ids) <= sql.max_variable_number →
  sql.parse e (FindOldPuppies_query ids) = Some (sql.StmtSelectIn (length ids)).
Proof.
  intros Hok Hmax. rewrite parse_FindOldPuppies_query_closed.
  destruct ids as [|i ids].
  - cbn [length]. now rewrite Hok.
  - cbn [length] in *. destruct (Z.leb_spec (Z.of_nat (S (length ids))) sql.max_variable_number);
      [reflexivity|lia].
Qed.


(** The loop of [InsertPuppies] adds one row per image when the values of
    the ids differ from one another and from those in the table. *)
Lemma InsertPuppies_loop_inserted (h : list Image.t) (imgs : list Image.t) :
  ∀ (ps : list ptr) (rows : list sql.row),
    Forall2 (λ p a, load h p = Some a) ps imgs →
    NoDup ((λ a, sql.integer_affinity e (Image.ID a)) <$> imgs) →
    (∀ a r, a ∈ imgs → r ∈ rows →
       sql.value_eqb (sql.puppy_id r) (sql.integer_affinity e (Image.ID a)) = false) →
    InsertPuppies_loop e h rows ps = sql.Ok (rows ++ inserted e rows imgs).
Proof.
  induction imgs as [|a imgs IH]; intros ps rows Hload Hnd Hrows.
  - apply Forall2_nil_inv_r in Hload as ->. cbn. now rewrite app_nil_r.
  - apply Forall2_cons_inv_r in Hload as (p & ps1 & Hp & Hps & ->).
    apply NoDup_cons in Hnd as [Hna Hnd].
    cbn [InsertPuppies_loop]. rewrite Hp. unfold sql.Exec_insert, sql.unique_ok.
    assert (Hex : existsb (λ r, sql.value_eqb (sql.puppy_id r)
                                  (sql.integer_affinity e (Image.ID a))) rows = false).
    { apply not_true_is_false. intros Hex. apply existsb_exists in Hex as (r & Hr & E).
      rewrite (Hrows a r) in E; [discriminate|apply list_elem_of_here|].
      now apply list_elem_of_In. }
    rewrite Hex. cbn [negb inserted].
    rewrite (IH ps1 _ Hps Hnd).
    + now rewrite <- app_assoc.
    + intros a1 r Ha1 Hr. apply elem_of_app in Hr as [Hr|Hr].
      * apply Hrows; [now apply list_elem_of_further|exact Hr].
      * apply list_elem_of_singleton in Hr as ->. cbn.
        apply not_true_is_false. intros E. apply value_eqb_eq in E.
        apply Hna. rewrite E. apply list_elem_of_fmap. now exists a1.
Qed.

Lemma inserted_puppy_ids (imgs : list Image.t) :
  ∀ rows r, r ∈ inserted e rows imgs →
    ∃ a, a ∈ imgs ∧ sql.puppy_id r = sql.integer_affinity e (Image.ID a).
Proof.
  induction imgs as [|a imgs IH]; intros rows r Hr; cbn in Hr.
  - now apply not_elem_of_nil in Hr.
  - apply elem_of_cons in Hr as [->|Hr].
    + exists a. split; [apply list_elem_of_here|reflexivity].
    + destruct (IH _ r Hr) as (a1 & Ha1 & E). exists a1.
      split; [now apply list_elem_of_further|exact E].
Qed.

(** What [Scan] reads from the rows inserted for images whose ids the engine
    stores as their numbers. *)
Lemma Scan_inserted (imgs : list Image.t) :
  ∀ rows,
    (∀ a, a ∈ imgs → sql.integer_affinity e (Image.ID a) = sql.Integer (id_number a)) →
    map vote_triple (map Scan (inserted e rows imgs)) = map image_triple imgs.
Proof.
  induction imgs as [|a imgs IH]; intros rows Hnum; [reflexivity|].
  cbn [inserted map]. f_equal.
  - unfold Scan. cbn. rewrite (Hnum a) by apply list_elem_of_here. reflexivity.
  - apply IH. intros a1 Ha1. apply Hnum. now apply list_elem_of_further.
Qed.

(** C3, amended.  [FindOldPuppies] has no case of its own for the empty
    sequence of ids: it builds the statement
    [select * from votes where puppy_id in ()], prepares it and runs it with
    no operand.  On a store that accepts an empty list (as sqlite3 does) it
    returns no row and no error; on a store that rejects it the call is
    fatal. *)
Theorem FindOldPuppies_empty (d : sql.DB) (rows : list sql.row) :
  sql.votes d = sql.Votes rows →
  FindOldPuppies_query [] = "select * from votes where puppy_id in ()" ∧
  FindOldPuppies e (Some d) [] =
    if sql.empty_list_ok e
    then sql.Ok ([], sql.mkDB (sql.votes d)
                       (sql.statements d ++ ["select * from votes where puppy_id in ()"]))
    else sql.Fatal.
Proof.
  intros Hd. split; [reflexivity|].
  unfold FindOldPuppies, sql.Prepare. rewrite Hd.
  change (FindOldPuppies_query []) with "select * from votes where puppy_id in ()".
  unfold sql.parse.
  change (String.eqb "select * from votes where puppy_id in ()" sql.insert_text) with false.
  change (sql.strip_prefix sql.select_head "select * from votes where puppy_id in ()")
    with (Some ")").
  cbn. destruct (sql.empty_list_ok e); [|reflexivity].
  cbn. now rewrite filter_none.
Qed.


(** C7, amended.  Take a registry of [k] images, [k] at most the 32766
    variables a statement may have, whose ids are numbers that the store
    keeps as those integers, pairwise different as numbers, and a table
    [votes] that exists and has no row for any of them (and, when [k = 0], a
    store that accepts the empty list).  Then [InsertPuppies] of the
    registry's images succeeds, and [FindOldPuppies] with the [k] ids then
    returns exactly [k] votes, whose triples (image id, up-votes,
    down-votes) are those of the images at the time of the insertion, in
    the order the store yields them. *)
Theorem InsertPuppies_FindOldPuppies_roundtrip
    (s : State) (d : sql.DB) (rows : list sql.row) :
  wf s →
  (∀ l, Permutation (sql.scan_order e l) l) →
  (entries s = [] → sql.empty_list_ok e = true) →
  Z.of_nat (length (entries s)) <= sql.max_variable_number →
  sql.votes d = sql.Votes rows →
  (∀ a, a ∈ entries s →
     strconv.Atoi (Image.ID a) = (id_number a, None) ∧
     sql.integer_affinity e (Image.ID a) = sql.Integer (id_number a)) →
  NoDup (id_number <$> entries s) →
  (∀ a r, a ∈ entries s → r ∈ rows → sql.puppy_id r ≠ sql.Integer (id_number a)) →
  ∃ d1 votes d2,
    InsertPuppies e (Some d) (heap s) (Some <$> All s) = sql.Ok d1 ∧
    FindOldPuppies e (Some d1) (Image.ID <$> entries s) = sql.Ok (votes, d2) ∧
    length votes = length (entries s) ∧
    Permutation (map vote_triple votes) (map image_triple (entries s)).
Proof.
  intros Hwf Hperm Hempty Hmax Hd Hnum Hnd Habsent.
  set (imgs := entries s) in *.
  set (new := inserted e rows imgs).
  assert (Haff : ∀ a, a ∈ imgs →
                      sql.integer_affinity e (Image.ID a) = sql.Integer (id_number a))
    by (intros a Ha; now apply Hnum).
  assert (Hloop : InsertPuppies_loop e (heap s) rows (Some <$> All s)
                  = sql.Ok (rows ++ new)).
  { apply InsertPuppies_loop_inserted.
    - now apply wf_entries.
    - replace ((λ a, sql.integer_affinity e (Image.ID a)) <$> imgs)
        with (sql.Integer <$> (id_number <$> imgs)).
      + apply NoDup_fmap_2; [|exact Hnd]. intros x y [= ->]. reflexivity.
      + rewrite <- list_fmap_compose. apply list_fmap_ext. intros i a Ha. cbn.
        symmetry. apply Haff. apply list_elem_of_lookup. now exists i.
    - intros a r Ha Hr. rewrite (Haff a Ha). apply not_true_is_false. intros E.
      apply value_eqb_eq in E. now apply (Habsent a r). }
  set (ids := Image.ID <$> imgs).
  set (P := λ r : sql.row, sql.in_params e (sql.puppy_id r) ids).
  assert (Hold : List.filter P rows = []).
  { apply filter_none. intros r Hr. apply not_true_is_false. intros E.
    apply existsb_exists in E as (p & Hp & E). apply value_eqb_eq in E.
    apply list_elem_of_In, list_elem_of_fmap in Hp as (a & -> & Ha).
    rewrite (Haff a Ha) in E. now apply (Habsent a r). }
  assert (Hnew : List.filter P new = new).
  { apply filter_all. intros r Hr.
    destruct (inserted_puppy_ids imgs rows r Hr) as (a & Ha & E).
    apply existsb_exists. exists (Image.ID a). split.
    - apply list_elem_of_In, list_elem_of_fmap. now exists a.
    - rewrite E, (Haff a Ha). apply value_eqb_Integer. }
  set (q := FindOldPuppies_query ids).
  exists (sql.mkDB (sql.Votes (rows ++ new)) (sql.statements d ++ [sql.insert_text])),
         (map Scan (List.filter P (sql.scan_order e (rows ++ new)))),
         (sql.mkDB (sql.Votes (rows ++ new))
                   ((sql.statements d ++ [sql.insert_text]) ++ [q])).
  assert (Hfilter : Permutation (List.filter P (sql.scan_order e (rows ++ new))) new).
  { rewrite (Permutation_filter P _ _ (Hperm (rows ++ new))).
    now rewrite List.filter_app, Hold, Hnew. }
  split_and!.
  - unfold InsertPuppies, sql.Prepare. rewrite Hd.
    change (sql.parse e sql.insert_text) with (Some sql.StmtInsert).
    cbn [sql.votes sql.statements]. now rewrite Hloop.
  - unfold FindOldPuppies, sql.Prepare. cbn [sql.votes sql.statements].
    rewrite parse_FindOldPuppies_query.
    + unfold sql.Query_select. rewrite Nat.eqb_refl. reflexivity.
    + intros E. apply Hempty. now apply fmap_nil_inv in E.
    + unfold ids. now rewrite length_fmap.
  - rewrite length_map, (Permutation_length Hfilter). unfold new.
    rewrite <- (length_map image_triple imgs), <- (Scan_inserted imgs rows Haff).
    now rewrite !length_map.
  - rewrite <- (Scan_inserted imgs rows Haff).
    apply Permutation_map, Permutation_map. exact Hfilter.
Qed.

End Store.

(** The program on the two engines of the examples. *)

Example FindOldPuppies_query_3 :
  FindOldPuppies_query ["1"; "2"; "3"]
  = "select * from votes where puppy_id in (?,?,?)".
Proof. reflexivity. Qed.

Example FindOldPuppies_1_3 :
  ∃ d1 d2,
    InsertPuppies engine_lenient (Some store0) (heap state123) (Some <$> All state123)
      = sql.Ok d1 ∧
    FindOldPuppies engine_lenient (Some d1) ["1"; "3"]
      = sql.Ok ([DBVote.mk 1 1 3 (-2); DBVote.mk 3 3 1 (-1)], d2).
Proof. eexists _, _. split; reflexivity. Qed.

(** C3 as stated fails: for no ids the statement with no placeholder is
    built and prepared all the same, also on a store that takes the empty
    list and answers with no row; a store that does not take it ends the
    process. *)
Lemma FindOldPuppies_empty_not_special_cased :
  ¬ (∀ (e : sql.Engine) (d : sql.DB),
       sql.votes d = sql.Votes [] →
       ∃ d1, FindOldPuppies e (Some d) [] = sql.Ok ([], d1) ∧
             sql.statements d1 = sql.statements d) ∧
  FindOldPuppies engine_lenient (Some store0) []
    = sql.Ok ([], sql.mkDB (sql.Votes []) ["select * from votes where puppy_id in ()"]) ∧
  FindOldPuppies engine_strict (Some store0) [] = sql.Fatal.
Proof.
  split_and!; [|reflexivity|reflexivity].
  intros H. destruct (H engine_lenient store0 eq_refl) as (d1 & Hrun & Hst).
  vm_compute in Hrun. injection Hrun as <-. discriminate Hst.
Qed.

Lemma FindOldPuppies_empty_witness :
  sql.votes store0 = sql.Votes [] ∧
  FindOldPuppies engine_lenient (Some store0) []
    = sql.Ok ([], sql.mkDB (sql.Votes []) ["select * from votes where puppy_id in ()"]).
Proof.
  split; [reflexivity|].
  exact (proj2 (FindOldPuppies_empty engine_lenient store0 [] eq_refl)).
Defined.

Example roundtrip_text_id_values :
  ∃ d1 d2,
    InsertPuppies engine_lenient (Some store0) (heap state_abc) (Some <$> All state_abc)
      = sql.Ok d1 ∧
    FindOldPuppies engine_lenient (Some d1) ["abc"] = sql.Ok ([DBVote.mk 1 0 0 0], d2).
Proof. eexists _, _. split; reflexivity. Qed.

(** C7 as stated fails: an id that is no number has no integer to come back
    as, whatever the store does. *)
Lemma roundtrip_fails_for_text_id :
  ¬ (∀ (e : sql.Engine) (s : State) (d : sql.DB),
       wf s → NoDup (Image.ID <$> entries s) → sql.votes d = sql.Votes [] →
       ∃ d1 votes d2,
         InsertPuppies e (Some d) (heap s) (Some <$> All s) = sql.Ok d1 ∧
         FindOldPuppies e (Some d1) (Image.ID <$> entries s) = sql.Ok (votes, d2) ∧
         length votes = length (entries s) ∧
         ∀ a, a ∈ entries s → ∃ v, v ∈ votes ∧ vote_matches a v).
Proof.
  intros H.
  destruct (H engine_lenient state_abc store0) as (d1 & votes & d2 & _ & _ & _ & Hm).
  - apply wf_check. reflexivity.
  - apply NoDup_singleton.
  - reflexivity.
  - destruct (Hm (Image.mk "abc" "a" "" "" 5 0)) as (v & _ & HA & _).
    + apply list_elem_of_here.
    + vm_compute in HA. discriminate HA.
Qed.

Lemma InsertPuppies_FindOldPuppies_roundtrip_witness :
  ∃ d1 votes d2,
    InsertPuppies engine_lenient (Some store0) (heap state123) (Some <$> All state123)
      = sql.Ok d1 ∧
    FindOldPuppies engine_lenient (Some d1) ["1"; "2"; "3"] = sql.Ok (votes, d2) ∧
    length votes = 3%nat ∧
    Permutation (map vote_triple votes) [(1, 3, -2); (2, 0, 0); (3, 1, -1)].
Proof.
  apply (InsertPuppies_FindOldPuppies_roundtrip engine_lenient state123 store0 []).
  - apply wf_check. reflexivity.
  - intros l. reflexivity.
  - discriminate.
  - vm_compute. discriminate.
  - reflexivity.
  - intros a Ha. vm_compute in Ha.
    repeat (apply elem_of_cons in Ha as [->|Ha]; [split; reflexivity|]).
    now apply not_elem_of_nil in Ha.
  - apply (bool_decide_unpack _). vm_compute. exact I.
  - intros a r _ Hr. now apply not_elem_of_nil in Hr.
Defined.

(** * Further properties of the code *)

(** ** The registry *)

Lemma wf_grow (s : State) (a : Image.t) :
  wf s → wf (mkState (heap s ++ [a]) (images s)).
Proof.
  intros Hwf r Hr. cbn in *. destruct (Hwf r Hr) as [b Hb]. exists b.
  now apply lookup_app_l_Some.
Qed.

Lemma lookup_grow (s : State) (a : Image.t) (r : loc) :
  wf s → r ∈ images s → (heap s ++ [a]) !! r = heap s !! r.
Proof.
  intros Hwf Hr. destruct (Hwf r Hr) as [b Hb]. rewrite Hb.
  now apply lookup_app_l_Some.
Qed.

(** X1. [NewImage] returns the address of a new cell, which no entry of the
    registry has: the cell holds the photo's id and title, the thumbnail and
    the large URL of the photo (sizes [t] and [b]) and zero counts.  The
    cells that exist keep their content, and the registry is as before:
    [All], its entries and every answer of [Find]. *)
Theorem NewImage_new_cell (s : State) (photo : Photo.t) :
  wf s →
  ∃ (s1 : State) (l : loc),
    NewImage s photo = (s1, Some l) ∧
    heap s !! l = None ∧ (l ∉ All s1) ∧
    heap s1 !! l =
      Some (Image.mk (Photo.ID photo) (Photo.Title photo)
              ("http://farm" +:+ Photo.Farm photo +:+ ".static.flickr.com/" +:+
               Photo.Server photo +:+ "/" +:+ Photo.ID photo +:+ "_" +:+
               Photo.Secret photo +:+ "_t.jpg")
              ("http://farm" +:+ Photo.Farm photo +:+ ".static.flickr.com/" +:+
               Photo.Server photo +:+ "/" +:+ Photo.ID photo +:+ "_" +:+
               Photo.Secret photo +:+ "_b.jpg")
              0 0) ∧
    (∀ k a, heap s !! k = Some a → heap s1 !! k = Some a) ∧
    All s1 = All s ∧ entries s1 = entries s ∧
    (∀ ID, Find s1 ID = Find s ID) ∧
    wf s1.
Proof.
  intros Hwf. eexists _, (length (heap s)). split; [reflexivity|]. cbn [heap images All].
  split_and!.
  - apply lookup_ge_None. lia.
  - intros Hin. destruct (Hwf _ Hin) as [a Ha]. apply lookup_lt_Some in Ha. lia.
  - now apply list_lookup_middle.
  - intros k a Ha. now apply lookup_app_l_Some.
  - reflexivity.
  - unfold entries. cbn. apply entries_ext. intros r Hr. now apply lookup_grow.
  - intros ID. unfold Find. cbn. apply Find_loop_ext. intros r Hr.
    now rewrite lookup_grow.
  - now apply wf_grow.
Qed.

Lemma NewImage_new_cell_witness :
  ∃ (s1 : State) (l : loc),
    NewImage state1_saved photo1 = (s1, Some l) ∧ l = 2%nat ∧
    Find s1 "1" = Some (Some 1%nat, true).
Proof.
  destruct (NewImage_new_cell state1_saved photo1 (wf_check state1_saved eq_refl))
    as (s1 & l & HN & _ & _ & _ & _ & _ & _ & HF & _).
  exists s1, l. split; [exact HN|]. split.
  - cbn in HN. now injection HN as _ <-.
  - now rewrite HF.
Defined.

Lemma Find_loop_snoc_other (h : list Image.t) (ims : list loc) (n : loc)
    (a : Image.t) (ID : string) :
  (∀ r, r ∈ ims → is_Some (h !! r)) →
  h !! n = Some a → Image.ID a ≠ ID →
  Find_loop h (ims ++ [n]) ID = Find_loop h ims ID.
Proof.
  induction ims as [|im ims IH]; intros Hval Hn Hne.
  - cbn. rewrite Hn. cbn. now destruct (String.eqb_spec (Image.ID a) ID).
  - cbn. destruct (Hval im (list_elem_of_here _ _)) as [b Hb]. rewrite Hb. cbn.
    destruct (String.eqb (Image.ID b) ID); [reflexivity|].
    apply IH; [in_tail Hval|exact Hn|exact Hne].
Qed.

(** X2. After [Save] of an image, [Find] with its id returns an entry with
    that id; when the id was new the entry holds the image as saved.  [Find]
    answers every other id as before the call. *)
Theorem Save_then_Find (s : State) (l : loc) (i : Image.t) :
  wf s → heap s !! l = Some i →
  ∃ (s1 : State) (r : loc) (a : Image.t),
    Save s (Some l) = Some (s1, None) ∧
    Find s1 (Image.ID i) = Some (Some r, true) ∧
    heap s1 !! r = Some a ∧ Image.ID a = Image.ID i ∧
    (¬ saved s (Image.ID i) → a = i) ∧
    (∀ ID, ID ≠ Image.ID i → Find s1 ID = Find s ID).
Proof.
  intros Hwf Hl. destruct (saved_or_not s (Image.ID i)) as [Hs|Hf].
  - destruct (Find_loop_saved (heap s) (images s) (Image.ID i) Hwf Hs) as [r Hr].
    destruct (Find_loop_found _ _ _ _ Hr) as (r1 & a & [= <-] & _ & Ha & E).
    exists s, r, a. split_and!; try done. now apply Save_saved with i.
  - set (s1 := mkState (heap s ++ [i]) (images s ++ [length (heap s)])).
    assert (Hnew : heap s1 !! length (heap s) = Some i) by now apply list_lookup_middle.
    assert (Hval : ∀ r, r ∈ images s → is_Some (heap s1 !! r)).
    { intros r Hr. cbn. rewrite lookup_grow by done. now apply Hwf. }
    exists s1, (length (heap s)), i. split_and!; try done.
    + now apply Save_fresh.
    + unfold Find, s1. cbn. rewrite Find_loop_app_fresh.
      * cbn. rewrite list_lookup_middle by reflexivity. cbn. now rewrite String.eqb_refl.
      * exact Hval.
      * intros r a Hr Ha E. apply Hf. exists r, a. split_and!; try done.
        now rewrite <- (lookup_grow s i r Hwf Hr).
    + intros ID Hne. unfold Find, s1. cbn.
      rewrite (Find_loop_snoc_other _ _ _ i) by (try done; congruence).
      apply Find_loop_ext. intros r Hr. now rewrite lookup_grow.
Qed.

Lemma Save_then_Find_witness :
  ∃ (s1 : State) (r : loc),
    Save state1 (Some 0%nat) = Some (s1, None) ∧
    Find s1 "1" = Some (Some r, true) ∧ heap s1 !! r = Some image1 ∧
    Find s1 "2" = Some (None, false).
Proof.
  destruct (Save_then_Find state1 0 image1 (wf_check state1 eq_refl) eq_refl)
    as (s1 & r & a & HS & HF & Ha & _ & Hnew & Hother).
  exists s1, r. split_and!; try assumption.
  - rewrite Ha. f_equal. apply Hnew.
    apply not_saved_check; [apply wf_check|]; reflexivity.
  - rewrite (Hother "2"); [reflexivity|discriminate].
Defined.

Lemma Find_loop_first (h : list Image.t) (ims : list loc) (ID : string) (r : loc) :
  Find_loop h ims ID = Some (Some r, true) →
  ∃ pre post, ims = pre ++ r :: post ∧
    ∀ r1 a1, r1 ∈ pre → h !! r1 = Some a1 → Image.ID a1 ≠ ID.
Proof.
  induction ims as [|im ims IH]; cbn; [discriminate|].
  destruct (h !! im) as [a|] eqn:Ha; cbn; [|discriminate].
  destruct (String.eqb_spec (Image.ID a) ID) as [E|E].
  - intros [= <-]. exists [], ims. split; [reflexivity|].
    intros r1 a1 Hr1. now apply not_elem_of_nil in Hr1.
  - intros H. destruct (IH H) as (pre & post & -> & Hpre).
    exists (im :: pre), post. split; [reflexivity|].
    intros r1 a1 Hr1 Ha1. apply elem_of_cons in Hr1 as [->|Hr1].
    + congruence.
    + now apply (Hpre r1 a1).
Qed.

(** X3. On a registry [Find] never panics.  It answers [(nil, false)]
    exactly for the ids that no entry has; otherwise it answers [true] with
    the first entry of [All], in order, that has the id. *)
Theorem Find_answer (s : State) (ID : string) :
  wf s →
  (Find s ID = Some (None, false) ∧ ¬ saved s ID) ∨
  (∃ (r : loc) (a : Image.t) (pre post : list loc),
     Find s ID = Some (Some r, true) ∧ saved s ID ∧
     heap s !! r = Some a ∧ Image.ID a = ID ∧
     All s = pre ++ r :: post ∧
     ∀ r1 a1, r1 ∈ pre → heap s !! r1 = Some a1 → Image.ID a1 ≠ ID).
Proof.
  intros Hwf. destruct (saved_or_not s ID) as [Hs|Hf].
  - right. destruct (Find_loop_saved (heap s) (images s) ID Hwf Hs) as [r Hr].
    destruct (Find_loop_found _ _ _ _ Hr) as (r1 & a & [= <-] & _ & Ha & E).
    destruct (Find_loop_first _ _ _ _ Hr) as (pre & post & Hsplit & Hpre).
    exists r, a, pre, post. split_and!; done.
  - left. split; [|exact Hf]. apply Find_loop_fresh; [exact Hwf|].
    intros r a Hr Ha E. apply Hf. now exists r, a.
Qed.

Lemma Find_answer_witness :
  Find state123 "2" = Some (Some 1%nat, true) ∧
  Find state123 "4" = Some (None, false).
Proof.
  assert (Hwf : wf state123) by (apply wf_check; reflexivity).
  split.
  - destruct (Find_answer state123 "2" Hwf) as [[_ Hn]|(r & a & pre & post & HF & _)].
    + exfalso. apply Hn. apply (saved_check state123 "2" 1 Hwf). reflexivity.
    + reflexivity.
  - destruct (Find_answer state123 "4" Hwf) as [[HF _]|(r & a & pre & post & HF & _)].
    + exact HF.
    + vm_compute in HF. discriminate HF.
Defined.

(** X4. A call of [Save] that returns has an image to save, returns [nil],
    and either finds the id and changes nothing, or adds one entry at the end
    of the registry, whose cell is new and holds a copy of the image.  In
    both cases every cell that existed keeps its content, and so does every
    entry: [Save] never overwrites. *)
Theorem Save_never_overwrites (s s1 : State) (p : ptr) (e : error) :
  wf s → Save s p = Some (s1, e) →
  e = None ∧ wf s1 ∧
  (∀ k a, heap s !! k = Some a → heap s1 !! k = Some a) ∧
  ∃ (l : loc) (i : Image.t),
    p = Some l ∧ heap s !! l = Some i ∧
    ((saved s (Image.ID i) ∧ s1 = s) ∨
     (¬ saved s (Image.ID i) ∧
      All s1 = All s ++ [length (heap s)] ∧
      entries s1 = entries s ++ [i] ∧
      heap s1 = heap s ++ [i])).
Proof.
  intros Hwf HS. destruct (Save_Some s s1 p e HS) as (l & i & -> & Hl).
  destruct (saved_or_not s (Image.ID i)) as [Hs|Hf].
  - rewrite (Save_saved s l i Hwf Hl Hs) in HS. injection HS as <- <-.
    split_and!; try done. exists l, i. split_and!; try done. now left.
  - rewrite (Save_fresh s l i Hwf Hl Hf) in HS. injection HS as <- <-.
    split_and!; try done.
    + intros r Hr. cbn in *. apply elem_of_app in Hr as [Hr|Hr].
      * rewrite lookup_grow by done. now apply Hwf.
      * apply list_elem_of_singleton in Hr as ->. exists i. now apply list_lookup_middle.
    + intros k a Ha. now apply lookup_app_l_Some.
    + exists l, i. split_and!; try done. right. split_and!; try done.
      now apply entries_Save_fresh.
Qed.

Lemma Save_never_overwrites_witness :
  Save state1 (Some 0%nat) = Some (state1_saved, None) ∧
  heap state1_saved !! 0%nat = Some image1 ∧ wf state1_saved.
Proof.
  destruct (Save_never_overwrites state1 state1_saved (Some 0%nat) None
              (wf_check state1 eq_refl) eq_refl) as (_ & Hwf & Hkeep & _).
  split; [reflexivity|]. split; [|exact Hwf]. now apply Hkeep.
Defined.

(** X5. [Save] and [Update] panic on a [nil] image and on nothing else: with
    the address of a cell both return. *)
Theorem Save_Update_panic_on_nil (s : State) (isUpvote : bool) :
  wf s →
  Save s None = None ∧ Update s None isUpvote = None ∧
  ∀ l i, heap s !! l = Some i →
    is_Some (Save s (Some l)) ∧ is_Some (Update s (Some l) isUpvote).
Proof.
  intros Hwf. split_and!.
  - unfold Save. destruct (images s) as [|im rest] eqn:Hims; [reflexivity|].
    cbn. destruct (heap s !! im); reflexivity.
  - reflexivity.
  - intros l i Hl. split.
    + destruct (saved_or_not s (Image.ID i)) as [Hs|Hf].
      * rewrite (Save_saved s l i Hwf Hl Hs). now eexists.
      * rewrite (Save_fresh s l i Hwf Hl Hf). now eexists.
    + rewrite (Update_closed s l i isUpvote Hwf Hl). now eexists.
Qed.

Lemma Save_Update_panic_on_nil_witness :
  Save state1_saved None = None ∧ Update state1_saved None true = None ∧
  is_Some (Update state1_saved (Some 1%nat) true).
Proof.
  destruct (Save_Update_panic_on_nil state1_saved true (wf_check state1_saved eq_refl))
    as (HS & HU & Hok).
  split; [exact HS|]. split; [exact HU|].
  exact (proj2 (Hok 1%nat image1 eq_refl)).
Defined.

Lemma fields_sync (ims : list loc) (i : Image.t) (k : nat) (a : Image.t) :
  Image.Title (sync ims i k a) = Image.Title a ∧
  Image.Thumbnail (sync ims i k a) = Image.Thumbnail a ∧
  Image.Large (sync ims i k a) = Image.Large a.
Proof. unfold sync. now destruct (_ && _). Qed.

(** X6. [Update] changes vote counts and nothing else.  The registry has the
    same addresses in the same order, no cell is added, every cell keeps its
    id, title and URLs, [Find] answers every id as before, and a cell that
    is neither the image voted on nor an entry with its id is left as it
    was. *)
Theorem Update_changes_counts_only (s : State) (l : loc) (i : Image.t) (isUpvote : bool) :
  wf s → heap s !! l = Some i →
  ∃ (s1 : State) (t : Z * Z),
    Update s (Some l) isUpvote = Some (s1, t) ∧
    All s1 = All s ∧ length (heap s1) = length (heap s) ∧
    (∀ ID, Find s1 ID = Find s ID) ∧
    ∀ k a, heap s !! k = Some a →
      ∃ a1, heap s1 !! k = Some a1 ∧
        Image.ID a1 = Image.ID a ∧ Image.Title a1 = Image.Title a ∧
        Image.Thumbnail a1 = Image.Thumbnail a ∧ Image.Large a1 = Image.Large a ∧
        (k ≠ l → k ∉ All s ∨ Image.ID a ≠ Image.ID i → a1 = a).
Proof.
  intros Hwf Hl.
  pose proof (Update_closed s l i isUpvote Hwf Hl) as HU.
  set (s1 := mkState _ _) in HU.
  destruct (Update_heap s s1 l i isUpvote _ Hwf Hl HU) as (Hims & _ & Hl1 & Hk).
  assert (Hcell : ∀ k a, heap s !! k = Some a →
            ∃ a1, heap s1 !! k = Some a1 ∧
              Image.ID a1 = Image.ID a ∧ Image.Title a1 = Image.Title a ∧
              Image.Thumbnail a1 = Image.Thumbnail a ∧ Image.Large a1 = Image.Large a ∧
              (k ≠ l → k ∉ All s ∨ Image.ID a ≠ Image.ID i → a1 = a)).
  { intros k a Ha. destruct (decide (k = l)) as [->|Hne].
    - assert (a = i) by congruence. subst a. exists (voted isUpvote i).
      split_and!; try done; now destruct isUpvote.
    - exists (sync (images s) (voted isUpvote i) k a).
      rewrite (Hk k Hne), Ha.
      destruct (fields_sync (images s) (voted isUpvote i) k a) as (H1 & H2 & H3).
      split_and!; try done.
      + apply ID_sync.
      + intros _ Hor. unfold sync. rewrite ID_voted. destruct Hor as [Hn|Hn].
        * now rewrite bool_decide_eq_false_2.
        * destruct (String.eqb_spec (Image.ID a) (Image.ID i)); [contradiction|].
          now rewrite andb_false_r. }
  exists s1, (tally (voted isUpvote i)). split_and!; try done.
  - unfold s1. cbn. now rewrite length_imap, length_insert.
  - intros ID. unfold Find. rewrite Hims. apply Find_loop_ext. intros r Hr.
    destruct (Hwf r Hr) as [a Ha]. destruct (Hcell r a Ha) as (a1 & Ha1 & E & _).
    rewrite Ha, Ha1. cbn. now rewrite E.
Qed.

Lemma Update_changes_counts_only_witness :
  ∃ (s1 : State) (t : Z * Z),
    Update state123 (Some 0%nat) true = Some (s1, t) ∧
    All s1 = [0%nat; 1%nat; 2%nat] ∧
    heap s1 !! 1%nat = Some (Image.mk "2" "b" "" "" 0 0).
Proof.
  destruct (Update_changes_counts_only state123 0 (Image.mk "1" "a" "" "" 3 (-2)) true
              (wf_check state123 eq_refl) eq_refl)
    as (s1 & t & HU & HAll & _ & _ & Hcell).
  exists s1, t. split; [exact HU|]. split; [exact HAll|].
  destruct (Hcell 1%nat (Image.mk "2" "b" "" "" 0 0) eq_refl)
    as (a1 & Ha1 & _ & _ & _ & _ & Hsame).
  rewrite Ha1. f_equal. apply Hsame; [discriminate|]. right. discriminate.
Defined.

Lemma count_at_most_one (l : list Image.t) (ID : string) :
  NoDup (Image.ID <$> l) →
  (length (List.filter (λ a, String.eqb (Image.ID a) ID) l) <= 1)%nat.
Proof.
  intros Hnd. destruct (decide (ID ∈ Image.ID <$> l)) as [Hin|Hn].
  - now rewrite count_unique.
  - rewrite count_fresh by exact Hn. cbn. lia.
Qed.

(** X7. Whatever [NewImage], [Save] and [Update] calls are made on a new
    manager, in any order and with any images the caller holds, the registry
    has at most one entry for each id, every address in it is that of a
    cell, and it has no more entries than calls were made. *)
Theorem run_keeps_ids_unique (ops : list op) (s : State) :
  run NewImageManager ops = Some s →
  wf s ∧ unique_ids s ∧ (∀ ID, (count_id s ID <= 1)%nat) ∧
  (length (All s) <= length ops)%nat.
Proof.
  intros Hrun.
  destruct (reachable_wf_unique s (ex_intro _ ops Hrun)) as [Hwf Huniq].
  split_and!; try done.
  - intros ID. unfold count_id. now apply count_at_most_one.
  - revert Hrun. change (length ops) with (length (All NewImageManager) + length ops)%nat.
    assert (Hw0 : wf NewImageManager) by (destruct invariant_init as (H & _); exact H).
    assert (Hu0 : unique_ids NewImageManager)
      by (destruct invariant_init as (_ & H & _); exact H).
    revert Hw0 Hu0. generalize NewImageManager as s0. clear Hwf Huniq.
    induction ops as [|o ops IH]; intros s0 Hw0 Hu0 Hrun.
    + cbn in Hrun. injection Hrun as <-. lia.
    + cbn [run] in Hrun. destruct (step s0 o) as [s2|] eqn:Hstep; [|discriminate].
      cbn in Hrun. destruct (step_wf_unique s0 s2 o Hw0 Hu0 Hstep) as [Hw2 Hu2].
      specialize (IH s2 Hw2 Hu2 Hrun).
      assert (length (All s2) <= S (length (All s0)))%nat; [|cbn [length]; lia].
      unfold All in *. destruct o as [photo|p|p b]; cbn [step] in Hstep.
      * injection Hstep as <-. cbn [NewImage fst images]. lia.
      * destruct (Save s0 p) as [[s3 e]|] eqn:HS; [|discriminate].
        cbn in Hstep. injection Hstep as ->.
        destruct (Save_Some s0 s2 p e HS) as (l & i & -> & Hl).
        destruct (saved_or_not s0 (Image.ID i)) as [Hs|Hf].
        -- rewrite (Save_saved s0 l i Hw0 Hl Hs) in HS. injection HS as <- _. lia.
        -- rewrite (Save_fresh s0 l i Hw0 Hl Hf) in HS. injection HS as <- _.
           cbn [images]. rewrite length_app. cbn [length]. lia.
      * destruct (Update s0 p b) as [[s3 t]|] eqn:HU; [|discriminate].
        cbn in Hstep. injection Hstep as ->.
        destruct (Update_Some s0 s2 p b t HU) as (l & i & -> & Hl).
        destruct (Update_heap s0 s2 l i b t Hw0 Hl HU) as (Hims & _).
        rewrite Hims. lia.
Qed.

Lemma run_keeps_ids_unique_witness :
  run NewImageManager ops_downvote = Some state_downvoted ∧
  (count_id state_downvoted "1" <= 1)%nat ∧ (length (All state_downvoted) <= 3)%nat.
Proof.
  destruct (run_keeps_ids_unique ops_downvote state_downvoted eq_refl)
    as (_ & _ & Hc & Hlen).
  split; [reflexivity|]. split; [apply Hc|exact Hlen].
Defined.

(** X8. Votes are counted on the image passed in, not on the entry.  After
    [k] votes through the registry's own entry (the pointer [Find] returns),
    one vote through a copy the caller kept from before gives the entry the
    counts of that copy plus this one vote: the [k] votes are lost. *)
Theorem stale_copy_overrides_entry
    (s : State) (l r : loc) (i a : Image.t) (isUpvote : bool) (k : nat) :
  wf s → heap s !! l = Some i → l ∉ All s →
  r ∈ All s → heap s !! r = Some a → Image.ID a = Image.ID i → int_counts a →
  ∃ (sk s1 : State),
    Update_times k s (Some r) isUpvote = Some sk ∧
    tally <$> heap sk !! r = Some (tally_after isUpvote k (tally a)) ∧
    Update sk (Some l) isUpvote = Some (s1, tally_after isUpvote 1 (tally i)) ∧
    tally <$> heap s1 !! r = Some (tally_after isUpvote 1 (tally i)).
Proof.
  intros Hwf Hl Hnin Hr Ha Hid Hint. unfold All in *.
  assert (Hne : l ≠ r) by (intros ->; contradiction).
  destruct (Update_times_cells isUpvote r k s a Hwf Ha Hint)
    as (sk & Hrun & Hims & Hrk & Hcells).
  assert (Hlk : heap sk !! l = Some i).
  { rewrite (Hcells l i Hne Hl). rewrite (bool_decide_eq_false_2 (l ∈ images s)) by done.
    now rewrite andb_false_r. }
  assert (Hwfk : wf sk).
  { intros r1 Hr1. rewrite Hims in Hr1. destruct (decide (r1 = r)) as [->|Hne1].
    - rewrite Hrk. now eexists.
    - destruct (Hwf r1 Hr1) as [a1 Ha1]. rewrite (Hcells r1 a1 Hne1 Ha1). now eexists. }
  pose proof (Update_closed sk l i isUpvote Hwfk Hlk) as HU.
  set (s1 := mkState _ _) in HU.
  destruct (Update_heap sk s1 l i isUpvote _ Hwfk Hlk HU) as (_ & _ & _ & Hk1).
  exists sk, s1. split_and!.
  - exact Hrun.
  - rewrite Hrk. cbn. now rewrite tally_set_tally.
  - now rewrite <- tally_voted.
  - rewrite (Hk1 r) by congruence. rewrite Hrk. cbn. f_equal.
    unfold sync. rewrite Hims, bool_decide_eq_true_2 by done.
    rewrite ID_set_tally, ID_voted, Hid, String.eqb_refl. cbn [andb].
    now rewrite tally_set_tally, tally_voted.
Qed.

Lemma stale_copy_overrides_entry_witness :
  ∃ (sk s1 : State),
    Update_times 3 state1_saved (Some 1%nat) true = Some sk ∧
    tally <$> heap sk !! 1%nat = Some (3, 0) ∧
    Update sk (Some 0%nat) true = Some (s1, (1, 0)) ∧
    tally <$> heap s1 !! 1%nat = Some (1, 0).
Proof.
  apply (stale_copy_overrides_entry state1_saved 0 1 image1 image1 true 3).
  - apply wf_check. reflexivity.
  - reflexivity.
  - intros H. apply list_elem_of_singleton in H. discriminate H.
  - apply list_elem_of_here.
  - reflexivity.
  - reflexivity.
  - apply int_counts_check. reflexivity.
Defined.

(** ** The summary of a search, on numeric fields *)

(** Up to 18 digits the loop of [ParseUint] reads the decimal value: none of
    its overflow tests fires. *)
Lemma ParseUint_loop_value (s : string) :
  ∀ (n : Z) (k : nat),
    0 <= n < 10 ^ Z.of_nat k →
    strconv.all_digits s = true →
    (k + String.length s <= 18)%nat →
    strconv.ParseUint_loop s n = (digits_value s n, None) ∧
    0 <= digits_value s n < 10 ^ 18.
Proof.
  induction s as [|c s IH]; intros n k Hn Hd Hlen.
  - cbn. split; [reflexivity|].
    assert (10 ^ Z.of_nat k <= 10 ^ 18) by (apply Z.pow_le_mono_r; cbn in Hlen; lia). lia.
  - cbn [strconv.ParseUint_loop digits_value]. cbn [strconv.all_digits] in Hd.
    apply andb_true_iff in Hd as [Hc Hs]. apply bool_decide_eq_true in Hc as [d Hd].
    rewrite Hd. pose proof (digit_bound c d Hd) as Hdb. cbn [String.length] in Hlen.
    assert (Hk : 10 ^ Z.of_nat k <= 10 ^ 17) by (apply Z.pow_le_mono_r; lia).
    assert (Hk1 : 10 ^ Z.of_nat (S k) = 10 * 10 ^ Z.of_nat k).
    { rewrite Nat2Z.inj_succ. apply Z.pow_succ_r. lia. }
    change (10 ^ 17) with 100000000000000000 in Hk.
    change (strconv.maxUint64 / 10 + 1) with 1844674407370955162.
    change strconv.maxUint64 with 18446744073709551615.
    destruct (Z.leb_spec 1844674407370955162 n); [lia|].
    destruct (Z.ltb_spec 18446744073709551615 (n * 10 + d)); [lia|].
    apply (IH (n * 10 + d) (S k)); [lia|exact Hs|lia].
Qed.

(** [Atoi] of a numeric string of at most 18 characters is its decimal
    value, without error. *)
Lemma Atoi_short_numeric (s : string) :
  strconv.numeric s = true → (String.length s <= 18)%nat →
  strconv.Atoi s = (decimal_value s, None) ∧ - 10 ^ 18 < decimal_value s < 10 ^ 18.
Proof.
  unfold strconv.Atoi, strconv.ParseInt, strconv.numeric, decimal_value.
  destruct s as [|c s]; [discriminate|]. cbn [String.length]. intros Hn Hlen.
  assert (HU : ∀ t, strconv.unsigned_numeric t = true → (String.length t <= 18)%nat →
                    strconv.ParseUint t = (digits_value t 0, None) ∧
                    0 <= digits_value t 0 < 10 ^ 18).
  { intros t Ht Hl. destruct t as [|c1 t1]; [discriminate|].
    apply (ParseUint_loop_value (String c1 t1) 0 0); [cbn; lia|exact Ht|cbn in *; lia]. }
  assert (Hw : ∀ un, 0 <= un < 10 ^ 18 →
                     GoInt.wrap un = un ∧ GoInt.wrap (- un) = - un).
  { intros un Hun. change (10 ^ 18) with 1000000000000000000 in Hun.
    split; apply wrap_small; unfold GoInt.in_range;
      change GoInt.MinInt with (-9223372036854775808);
      change GoInt.MaxInt with 9223372036854775807; lia. }
  change (2 ^ (GoInt.intSize - 1)) with 9223372036854775808.
  destruct (Ascii.eqb_spec c "-") as [->|Hm].
  - cbn [Ascii.eqb Bool.eqb orb andb negb] in *.
    destruct (HU s Hn ltac:(lia)) as [-> Hv]. destruct (Hw _ Hv) as [W1 W2].
    change (10 ^ 18) with 1000000000000000000 in *.
    destruct (Z.ltb_spec 9223372036854775808 (digits_value s 0)); [lia|].
    cbn [negb andb]. rewrite W1, W2. split; [reflexivity|lia].
  - destruct (Ascii.eqb_spec c "+") as [->|Hp].
    + cbn [orb andb negb] in *.
      destruct (HU s Hn ltac:(lia)) as [-> Hv]. destruct (Hw _ Hv) as [W1 W2].
      change (10 ^ 18) with 1000000000000000000 in *.
      destruct (Z.leb_spec 9223372036854775808 (digits_value s 0)); [lia|].
      cbn [negb andb]. rewrite W1. split; [reflexivity|lia].
    + cbn [orb andb negb] in *.
      destruct (HU (String c s) Hn ltac:(cbn; lia)) as [-> Hv]. destruct (Hw _ Hv) as [W1 W2].
      change (10 ^ 18) with 1000000000000000000 in *.
      destruct (Z.leb_spec 9223372036854775808 (digits_value (String c s) 0)); [lia|].
      cbn [negb andb]. rewrite W1. split; [reflexivity|lia].
Qed.

(** X9. A total that is a numeric string of at most 18 characters always
    gives a summary, whatever the other fields hold; the summary carries the
    decimal value of the total and the registry's list of images.  When the
    other three fields are such strings too, the summary holds the decimal
    value of each. *)
Theorem GetPuppiesResponse_numeric (s : State) (sr : SearchResponse.t) :
  strconv.numeric (SearchResponse.Total sr) = true →
  (String.length (SearchResponse.Total sr) <= 18)%nat →
  ∃ r : PuppiesResponse.t,
    GetPuppiesResponse s sr = Some r ∧
    PuppiesResponse.Total r = decimal_value (SearchResponse.Total sr) ∧
    PuppiesResponse.Images r = All s ∧
    (strconv.numeric (SearchResponse.Page sr) = true →
     (String.length (SearchResponse.Page sr) <= 18)%nat →
     PuppiesResponse.Page r = decimal_value (SearchResponse.Page sr)) ∧
    (strconv.numeric (SearchResponse.Pages sr) = true →
     (String.length (SearchResponse.Pages sr) <= 18)%nat →
     PuppiesResponse.Pages r = decimal_value (SearchResponse.Pages sr)) ∧
    (strconv.numeric (SearchResponse.PerPage sr) = true →
     (String.length (SearchResponse.PerPage sr) <= 18)%nat →
     PuppiesResponse.PerPage r = decimal_value (SearchResponse.PerPage sr)).
Proof.
  intros Hn Hlen. rewrite GetPuppiesResponse_closed.
  destruct (Atoi_short_numeric _ Hn Hlen) as [Ht _]. rewrite Ht. cbn [fst snd].
  eexists. split; [reflexivity|]. cbn. split_and!; try reflexivity.
  - intros H1 H2. now destruct (Atoi_short_numeric _ H1 H2) as [-> _].
  - intros H1 H2. now destruct (Atoi_short_numeric _ H1 H2) as [-> _].
  - intros H1 H2. now destruct (Atoi_short_numeric _ H1 H2) as [-> _].
Qed.

Lemma GetPuppiesResponse_numeric_witness :
  GetPuppiesResponse state1_saved response_ok
  = Some (PuppiesResponse.mk 3 12 100 (-7) [1%nat]).
Proof.
  destruct (GetPuppiesResponse_numeric state1_saved response_ok eq_refl
              ltac:(cbn; lia))
    as (r & -> & Ht & Hi & Hp & Hps & Hpp).
  destruct r as [page pages perPage total ims]. cbn in *.
  rewrite Ht, Hi, (Hp eq_refl ltac:(cbn; lia)), (Hps eq_refl ltac:(cbn; lia)),
    (Hpp eq_refl ltac:(cbn; lia)).
  reflexivity.
Defined.

(** ** The vote store, further *)

Lemma value_eqb_sym (a b : sql.value) : sql.value_eqb a b = sql.value_eqb b a.
Proof.
  destruct a, b; cbn; try reflexivity.
  - apply Z.eqb_sym.
  - apply String.eqb_sym.
Qed.

Lemma unique_ok_spec (v : sql.value) (rows : list sql.row) :
  sql.unique_ok v rows = true ↔
  ∀ r, r ∈ rows → sql.value_eqb (sql.puppy_id r) v = false.
Proof.
  unfold sql.unique_ok. rewrite negb_true_iff. split.
  - intros H r Hr. apply not_true_is_false. intros E.
    assert (existsb (λ r, sql.value_eqb (sql.puppy_id r) v) rows = true); [|congruence].
    apply existsb_exists. exists r. split; [now apply list_elem_of_In|exact E].
  - intros H. apply not_true_is_false. intros E.
    apply existsb_exists in E as (r & Hr & E). apply list_elem_of_In in Hr.
    rewrite (H r Hr) in E. discriminate.
Qed.

Lemma inserted_rows (e : sql.Engine) (imgs : list Image.t) :
  ∀ rows, Forall2 (λ a r, ∃ rowid, r = row_of e rowid a) imgs (inserted e rows imgs).
Proof.
  induction imgs as [|a imgs IH]; intros rows; cbn [inserted].
  - constructor.
  - constructor; [now eexists|apply IH].
Qed.

(** The loop of [InsertPuppies], when it returns. *)
Lemma InsertPuppies_loop_Ok (e : sql.Engine) (h : list Image.t) (ps : list ptr) :
  ∀ rows rows1,
    InsertPuppies_loop e h rows ps = sql.Ok rows1 →
    ∃ imgs, Forall2 (λ p a, load h p = Some a) ps imgs ∧
            rows1 = rows ++ inserted e rows imgs.
Proof.
  induction ps as [|p ps IH]; intros rows rows1; cbn [InsertPuppies_loop].
  - intros [= <-]. exists []. split; [constructor|]. cbn. now rewrite app_nil_r.
  - destruct (load h p) as [a|] eqn:Hp; [|discriminate].
    unfold sql.Exec_insert. destruct (sql.unique_ok _ rows); [|discriminate].
    intros H. destruct (IH _ _ H) as (imgs & Hload & ->).
    exists (a :: imgs). split; [now constructor|]. cbn [inserted].
    now rewrite <- app_assoc.
Qed.

Lemma InsertPuppies_Ok (e : sql.Engine) (db : option sql.DB) (h : list Image.t)
    (ps : list ptr) (d1 : sql.DB) :
  InsertPuppies e db h ps = sql.Ok d1 →
  ∃ d rows imgs,
    db = Some d ∧ sql.votes d = sql.Votes rows ∧
    Forall2 (λ p a, load h p = Some a) ps imgs ∧
    d1 = sql.mkDB (sql.Votes (rows ++ inserted e rows imgs))
                  (sql.statements d ++ [sql.insert_text]).
Proof.
  unfold InsertPuppies, sql.Prepare. destruct db as [d|]; [|discriminate].
  destruct (sql.votes d) as [|rows] eqn:Hd; [discriminate|].
  change (sql.parse e sql.insert_text) with (Some sql.StmtInsert).
  cbn [sql.votes sql.statements].
  destruct (InsertPuppies_loop e h rows ps) as [rows1| |] eqn:Hloop; try discriminate.
  intros [= <-]. destruct (InsertPuppies_loop_Ok e h ps rows rows1 Hloop) as (imgs & Hl & ->).
  now exists d, rows, imgs.
Qed.

(** X10. A call of [InsertPuppies] that returns had an open store with its
    table and no [nil] image; it has appended one row per image, in the
    order of the images, each with the stored value of the id and the two
    counts, and has left the rows that were there as they were. *)
Theorem InsertPuppies_appends (e : sql.Engine) (db : option sql.DB)
    (h : list Image.t) (ps : list ptr) (d1 : sql.DB) :
  InsertPuppies e db h ps = sql.Ok d1 →
  ∃ d rows imgs new,
    db = Some d ∧ sql.votes d = sql.Votes rows ∧
    Forall2 (λ p a, load h p = Some a) ps imgs ∧
    sql.votes d1 = sql.Votes (rows ++ new) ∧
    length new = length ps ∧
    Forall2 (λ a r, ∃ rowid, r = row_of e rowid a) imgs new.
Proof.
  intros H. destruct (InsertPuppies_Ok e db h ps d1 H) as (d & rows & imgs & -> & Hd & Hl & ->).
  exists d, rows, imgs, (inserted e rows imgs). split_and!; try done.
  - pose proof (inserted_rows e imgs rows) as HF.
    rewrite <- (Forall2_length _ _ _ HF). symmetry. exact (Forall2_length _ _ _ Hl).
  - apply inserted_rows.
Qed.

Lemma InsertPuppies_appends_witness :
  InsertPuppies engine_lenient (Some store0) (heap state123) (Some <$> All state123)
    = sql.Ok store123 ∧
  ∃ new, sql.votes store123 = sql.Votes ([] ++ new) ∧ length new = 3%nat.
Proof.
  assert (Hrun : InsertPuppies engine_lenient (Some store0) (heap state123)
                   (Some <$> All state123) = sql.Ok store123) by reflexivity.
  split; [exact Hrun|].
  destruct (InsertPuppies_appends engine_lenient (Some store0) (heap state123)
              (Some <$> All state123) store123 Hrun)
    as (d & rows & imgs & new & Hd & Hv & _ & Hv1 & Hlen & _).
  injection Hd as <-. injection Hv as <-.
  exists new. split; [exact Hv1|exact Hlen].
Defined.

Lemma unique_puppy_ids_snoc (rows : list sql.row) (r : sql.row) :
  unique_puppy_ids rows →
  (∀ r1, r1 ∈ rows → sql.value_eqb (sql.puppy_id r1) (sql.puppy_id r) = false) →
  unique_puppy_ids (rows ++ [r]).
Proof.
  intros Hu Hr j k rj rk Hj Hk Hne.
  apply lookup_snoc_Some in Hj as [[Hjl Hj]|[-> <-]];
    apply lookup_snoc_Some in Hk as [[Hkl Hk]|[-> <-]].
  - now apply (Hu j k).
  - apply Hr. apply list_elem_of_lookup. now exists j.
  - rewrite value_eqb_sym. apply Hr. apply list_elem_of_lookup. now exists k.
  - contradiction.
Qed.

Lemma InsertPuppies_loop_unique (e : sql.Engine) (h : list Image.t) (ps : list ptr) :
  ∀ rows rows1,
    unique_puppy_ids rows →
    InsertPuppies_loop e h rows ps = sql.Ok rows1 → unique_puppy_ids rows1.
Proof.
  induction ps as [|p ps IH]; intros rows rows1 Hu; cbn [InsertPuppies_loop].
  - now intros [= <-].
  - destruct (load h p) as [a|]; [|discriminate].
    unfold sql.Exec_insert.
    destruct (sql.unique_ok _ rows) eqn:Hok; [|discriminate].
    apply IH. apply unique_puppy_ids_snoc; [exact Hu|].
    intros r1 Hr1. cbn. now apply (proj1 (unique_ok_spec _ rows) Hok).
Qed.

(** X11. [InsertPuppies] keeps the [unique] constraint of [puppy_id]: when
    no two rows of the table hold the same value before the call and the call
    returns, no two rows hold the same value after it. *)
Theorem InsertPuppies_keeps_unique (e : sql.Engine) (d d1 : sql.DB)
    (rows rows1 : list sql.row) (h : list Image.t) (ps : list ptr) :
  sql.votes d = sql.Votes rows → unique_puppy_ids rows →
  InsertPuppies e (Some d) h ps = sql.Ok d1 →
  sql.votes d1 = sql.Votes rows1 →
  unique_puppy_ids rows1.
Proof.
  intros Hd Hu H Hd1. unfold InsertPuppies, sql.Prepare in H. rewrite Hd in H.
  change (sql.parse e sql.insert_text) with (Some sql.StmtInsert) in H.
  cbn [sql.votes sql.statements] in H.
  destruct (InsertPuppies_loop e h rows ps) as [rows2| |] eqn:Hloop; try discriminate.
  injection H as <-. cbn in Hd1. injection Hd1 as <-.
  now apply (InsertPuppies_loop_unique e h ps rows).
Qed.

Lemma InsertPuppies_keeps_unique_witness :
  ∃ rows1, sql.votes store123 = sql.Votes rows1 ∧ unique_puppy_ids rows1.
Proof.
  eexists. split; [reflexivity|].
  apply (InsertPuppies_keeps_unique engine_lenient store0 store123 [] _
           (heap state123) (Some <$> All state123)).
  - reflexivity.
  - intros j k rj rk Hj. discriminate Hj.
  - reflexivity.
  - reflexivity.
Defined.

(** An image whose id the table already holds ends the loop of
    [InsertPuppies] fatally. *)
Lemma InsertPuppies_loop_duplicate (e : sql.Engine) (h : list Image.t) (imgs : list Image.t) :
  ∀ (ps : list ptr) (rows : list sql.row) (a : Image.t) (r : sql.row),
    Forall2 (λ p a, load h p = Some a) ps imgs →
    a ∈ imgs → r ∈ rows →
    sql.value_eqb (sql.puppy_id r) (sql.integer_affinity e (Image.ID a)) = true →
    InsertPuppies_loop e h rows ps = sql.Fatal.
Proof.
  induction imgs as [|a0 imgs IH]; intros ps rows a r Hload Ha Hr E.
  - now apply not_elem_of_nil in Ha.
  - apply Forall2_cons_inv_r in Hload as (p & ps1 & Hp & Hps & ->).
    cbn [InsertPuppies_loop]. rewrite Hp. unfold sql.Exec_insert.
    destruct (sql.unique_ok _ rows) eqn:Hok; [|reflexivity].
    apply elem_of_cons in Ha as [->|Ha].
    + rewrite (proj1 (unique_ok_spec _ rows) Hok r Hr) in E. discriminate.
    + apply (IH ps1 _ a r Hps Ha); [|exact E]. apply elem_of_app. now left.
Qed.

Lemma inserted_member (e : sql.Engine) (imgs : list Image.t) (a : Image.t) :
  ∀ rows, a ∈ imgs →
    ∃ r, r ∈ inserted e rows imgs ∧
         sql.puppy_id r = sql.integer_affinity e (Image.ID a).
Proof.
  induction imgs as [|a0 imgs IH]; intros rows Ha.
  - now apply not_elem_of_nil in Ha.
  - cbn [inserted]. apply elem_of_cons in Ha as [->|Ha].
    + eexists. split; [apply list_elem_of_here|reflexivity].
    + destruct (IH (rows ++ [sql.mkRow (sql.Integer (sql.next_rowid e rows))
                                      (sql.integer_affinity e (Image.ID a0))
                                      (sql.Integer (Image.UpVotes a0))
                                      (sql.Integer (Image.DownVotes a0))]) Ha)
        as (r & Hr & E).
      exists r. split; [now apply list_elem_of_further|exact E].
Qed.

(** X12. The store takes each id once.  After a call of [InsertPuppies] has
    returned, a later call whose images include one with an id of the
    first call is fatal, whatever the counts are by then: a second flush
    of the registry ends the process instead of updating the rows.  (The
    premise on the engine: it stores the id as a value, not as [NULL].) *)
Theorem InsertPuppies_second_flush_fatal
    (e : sql.Engine) (db : option sql.DB) (d1 : sql.DB)
    (h h2 : list Image.t) (ps ps2 : list ptr) (imgs2 : list Image.t)
    (l : loc) (a a2 : Image.t) :
  InsertPuppies e db h ps = sql.Ok d1 →
  Some l ∈ ps → h !! l = Some a →
  Forall2 (λ p a, load h2 p = Some a) ps2 imgs2 →
  a2 ∈ imgs2 → Image.ID a2 = Image.ID a →
  sql.integer_affinity e (Image.ID a) ≠ sql.Null →
  InsertPuppies e (Some d1) h2 ps2 = sql.Fatal.
Proof.
  intros H Hl Ha Hload2 Ha2 Hid Hnn.
  destruct (InsertPuppies_Ok e db h ps d1 H) as (d & rows & imgs & -> & Hd & Hload & ->).
  assert (Hin : a ∈ imgs).
  { apply list_elem_of_lookup in Hl as [k Hk].
    destruct (Forall2_lookup_l _ _ _ _ _ Hload Hk) as (a1 & Hk1 & Hl1).
    cbn in Hl1. apply list_elem_of_lookup. exists k. congruence. }
  destruct (inserted_member e imgs a rows Hin) as (r & Hr & E).
  unfold InsertPuppies, sql.Prepare. cbn [sql.votes sql.statements].
  change (sql.parse e sql.insert_text) with (Some sql.StmtInsert).
  rewrite (InsertPuppies_loop_duplicate e h2 imgs2 ps2 _ a2 r Hload2 Ha2); [reflexivity| |].
  - apply elem_of_app. now right.
  - rewrite Hid, E. destruct (sql.integer_affinity e (Image.ID a)); cbn.
    + contradiction.
    + apply Z.eqb_refl.
    + apply String.eqb_refl.
Qed.

Lemma InsertPuppies_second_flush_fatal_witness :
  InsertPuppies engine_lenient (Some store0) (heap state123) (Some <$> All state123)
    = sql.Ok store123 ∧
  InsertPuppies engine_lenient (Some store123) (heap state123) [Some 2%nat] = sql.Fatal.
Proof.
  assert (Hrun : InsertPuppies engine_lenient (Some store0) (heap state123)
                   (Some <$> All state123) = sql.Ok store123) by reflexivity.
  split; [exact Hrun|].
  apply (InsertPuppies_second_flush_fatal engine_lenient (Some store0) store123
           (heap state123) (heap state123) (Some <$> All state123) [Some 2%nat]
           [Image.mk "3" "c" "" "" 1 (-1)] 2
           (Image.mk "3" "c" "" "" 1 (-1)) (Image.mk "3" "c" "" "" 1 (-1)) Hrun).
  - vm_compute. do 2 apply list_elem_of_further. apply list_elem_of_here.
  - reflexivity.
  - repeat constructor.
  - apply list_elem_of_here.
  - reflexivity.
  - discriminate.
Defined.







(** X14. The store must be opened and its table created before it is used.
    On a manager whose [InitDB] was never called, [CreateTables],
    [InsertPuppies] and [FindOldPuppies] panic.  After [InitDB(true)],
    whatever the file held, [InitDB] has returned [nil] and the table is
    gone: [InsertPuppies] and [FindOldPuppies] are fatal, until
    [CreateTables] has run, which returns and leaves an empty table. *)
Theorem InitDB_then_CreateTables
    (e : sql.Engine) (file : sql.table) (h : list Image.t)
    (ps : list ptr) (ids : list string) :
  (CreateTables None = sql.Panic ∧
   InsertPuppies e None h ps = sql.Panic ∧
   FindOldPuppies e None ids = sql.Panic) ∧
  (InitDB file true).2 = None ∧
  InsertPuppies e (InitDB file true).1 h ps = sql.Fatal ∧
  FindOldPuppies e (InitDB file true).1 ids = sql.Fatal ∧
  ∃ d, CreateTables (InitDB file true).1 = sql.Ok d ∧
       sql.votes d = sql.Votes [] ∧
       InsertPuppies e (Some d) h [] = sql.Ok (sql.mkDB (sql.Votes []) [sql.insert_text]).
Proof.
  split_and!; try reflexivity.
  eexists. split; [reflexivity|]. split; reflexivity.
Qed.

(** X15. A restart on the file of an earlier run: after [InitDB(false)] the
    rows of the file are in the store, [CreateTables] returns and does not
    clear them ([create table] fails on the table that exists, the error is
    only printed), and to insert an image whose id one of these rows holds is
    then fatal. *)
Theorem restart_keeps_rows
    (e : sql.Engine) (rows : list sql.row) (h : list Image.t)
    (ps : list ptr) (imgs : list Image.t) (a : Image.t) (r : sql.row) :
  Forall2 (λ p a, load h p = Some a) ps imgs →
  a ∈ imgs → r ∈ rows →
  sql.value_eqb (sql.puppy_id r) (sql.integer_affinity e (Image.ID a)) = true →
  ∃ d, CreateTables (InitDB (sql.Votes rows) false).1 = sql.Ok d ∧
       sql.votes d = sql.Votes rows ∧
       InsertPuppies e (Some d) h ps = sql.Fatal.
Proof.
  intros Hload Ha Hr E. eexists. split; [reflexivity|]. split; [reflexivity|].
  unfold InsertPuppies, sql.Prepare. cbn [sql.votes sql.statements].
  change (sql.parse e sql.insert_text) with (Some sql.StmtInsert).
  now rewrite (InsertPuppies_loop_duplicate e h imgs ps rows a r Hload Ha Hr E).
Qed.

Lemma restart_keeps_rows_witness :
  ∃ d rows, sql.votes store123 = sql.Votes rows ∧
       CreateTables (InitDB (sql.Votes rows) false).1 = sql.Ok d ∧
       sql.votes d = sql.Votes rows ∧
       InsertPuppies engine_lenient (Some d) (heap state123) [Some 0%nat] = sql.Fatal.
Proof.
  destruct (restart_keeps_rows engine_lenient
              [sql.mkRow (sql.Integer 1) (sql.Integer 1) (sql.Integer 3) (sql.Integer (-2));
               sql.mkRow (sql.Integer 2) (sql.Integer 2) (sql.Integer 0) (sql.Integer 0);
               sql.mkRow (sql.Integer 3) (sql.Integer 3) (sql.Integer 1) (sql.Integer (-1))]
              (heap state123) [Some 0%nat] [Image.mk "1" "a" "" "" 3 (-2)]
              (Image.mk "1" "a" "" "" 3 (-2))
              (sql.mkRow (sql.Integer 1) (sql.Integer 1) (sql.Integer 3) (sql.Integer (-2))))
    as (d & HC & Hd & HI).
  - repeat constructor.
  - apply list_elem_of_here.
  - apply list_elem_of_here.
  - reflexivity.
  - exists d. eexists. split; [reflexivity|]. split; [exact HC|]. split; [exact Hd|exact HI].
Defined.

Lemma FindOldPuppies_closed (e : sql.Engine) (d : sql.DB) (rows : list sql.row)
    (ids : list string) :
  sql.votes d = sql.Votes rows → ids ≠ [] →
  Z.of_nat (length ids) <= sql.max_variable_number →
  FindOldPuppies e (Some d) ids =
    sql.Ok (map Scan (List.filter (λ r, sql.in_params e (sql.puppy_id r) ids)
                                  (sql.scan_order e rows)),
            sql.mkDB (sql.Votes rows) (sql.statements d ++ [FindOldPuppies_query ids])).
Proof.
  intros Hd Hne Hmax. unfold FindOldPuppies, sql.Prepare. rewrite Hd.
  cbn [sql.votes sql.statements].
  rewrite parse_FindOldPuppies_query by (try exact Hmax; intros ->; contradiction).
  unfold sql.Query_select. now rewrite Nat.eqb_refl.
Qed.

(** X16. The votes of an image whose id is no number do not come back.  When
    the store keeps such an id as text, [InsertPuppies] stores the image
    with its counts, and [FindOldPuppies] with that id finds the row, but
    [Scan] cannot read the id into the integer [puppy_id]; the program drops
    the error and returns the vote with [puppy_id] 0 and both counts 0. *)
Theorem text_id_counts_lost
    (e : sql.Engine) (d : sql.DB) (rows : list sql.row)
    (h : list Image.t) (l : loc) (a : Image.t) :
  (∀ l, Permutation (sql.scan_order e l) l) →
  sql.votes d = sql.Votes rows →
  h !! l = Some a →
  sql.integer_affinity e (Image.ID a) = sql.Text (Image.ID a) →
  (strconv.ParseInt (Image.ID a)).2 ≠ None →
  (∀ r, r ∈ rows → sql.value_eqb (sql.puppy_id r) (sql.Text (Image.ID a)) = false) →
  ∃ (d1 : sql.DB) (v : DBVote.t) (d2 : sql.DB),
    InsertPuppies e (Some d) h [Some l] = sql.Ok d1 ∧
    sql.votes d1 =
      sql.Votes (rows ++ [sql.mkRow (sql.Integer (sql.next_rowid e rows))
                                    (sql.Text (Image.ID a))
                                    (sql.Integer (Image.UpVotes a))
                                    (sql.Integer (Image.DownVotes a))]) ∧
    FindOldPuppies e (Some d1) [Image.ID a] = sql.Ok ([v], d2) ∧
    DBVote.puppy_id v = 0 ∧ DBVote.up_votes v = 0 ∧ DBVote.down_votes v = 0.
Proof.
  intros Hperm Hd Hl Haff Hparse Hrows.
  set (new := sql.mkRow (sql.Integer (sql.next_rowid e rows)) (sql.Text (Image.ID a))
                        (sql.Integer (Image.UpVotes a)) (sql.Integer (Image.DownVotes a))).
  set (d1 := sql.mkDB (sql.Votes (rows ++ [new])) (sql.statements d ++ [sql.insert_text])).
  set (P := λ r : sql.row, sql.in_params e (sql.puppy_id r) [Image.ID a]).
  assert (HP : List.filter P (sql.scan_order e (rows ++ [new])) = [new]).
  { apply Permutation_length_1_inv. symmetry.
    rewrite (Permutation_filter P _ _ (Hperm (rows ++ [new]))), List.filter_app.
    rewrite (filter_none P rows).
    - cbn. unfold P, sql.in_params. cbn. rewrite Haff. cbn.
      now rewrite String.eqb_refl.
    - intros r Hr. unfold P, sql.in_params. cbn. rewrite Haff, (Hrows r Hr). reflexivity. }
  exists d1, (Scan new), (sql.mkDB (sql.Votes (rows ++ [new]))
                            (sql.statements d1 ++ [FindOldPuppies_query [Image.ID a]])).
  split_and!.
  - unfold InsertPuppies, sql.Prepare. rewrite Hd.
    change (sql.parse e sql.insert_text) with (Some sql.StmtInsert).
    cbn [sql.votes sql.statements InsertPuppies_loop load mbind option_bind].
    rewrite Hl. unfold sql.Exec_insert. rewrite Haff.
    rewrite (proj2 (unique_ok_spec _ rows) Hrows). reflexivity.
  - reflexivity.
  - rewrite (FindOldPuppies_closed e d1 (rows ++ [new]) [Image.ID a] eq_refl)
      by (try discriminate; now vm_compute).
    fold P. now rewrite HP.
  - unfold Scan, new. cbn. destruct (strconv.ParseInt (Image.ID a)) as [z [err|]]; [reflexivity|].
    now contradiction Hparse.
  - unfold Scan, new. cbn. destruct (strconv.ParseInt (Image.ID a)) as [z [err|]]; [reflexivity|].
    now contradiction Hparse.
  - unfold Scan, new. cbn. destruct (strconv.ParseInt (Image.ID a)) as [z [err|]]; [reflexivity|].
    now contradiction Hparse.
Qed.

Lemma text_id_counts_lost_witness :
  ∃ (d1 : sql.DB) (v : DBVote.t) (d2 : sql.DB),
    InsertPuppies engine_lenient (Some store0) (heap state_abc) [Some 0%nat] = sql.Ok d1 ∧
    FindOldPuppies engine_lenient (Some d1) ["abc"] = sql.Ok ([v], d2) ∧
    DBVote.up_votes v = 0.
Proof.
  destruct (text_id_counts_lost engine_lenient store0 [] (heap state_abc) 0
              (Image.mk "abc" "a" "" "" 5 0) (λ l, Permutation_refl l)
              eq_refl eq_refl eq_refl)
    as (d1 & v & d2 & HI & _ & HF & _ & Hup & _).
  - discriminate.
  - intros r Hr. now apply not_elem_of_nil in Hr.
  - exists d1, v, d2. split; [exact HI|]. split; [exact HF|exact Hup].
Defined.

(** The loop of [InsertPuppies] over images that are there returns exactly
    when they can be inserted, and is fatal otherwise. *)
Lemma InsertPuppies_loop_outcome (e : sql.Engine) (h : list Image.t) (imgs : list Image.t) :
  ∀ (ps : list ptr) (rows : list sql.row),
    Forall2 (λ p a, load h p = Some a) ps imgs →
    (InsertPuppies_loop e h rows ps = sql.Ok (rows ++ inserted e rows imgs) ∧
     insertable e rows imgs) ∨
    (InsertPuppies_loop e h rows ps = sql.Fatal ∧ ¬ insertable e rows imgs).
Proof.
  induction imgs as [|a imgs IH]; intros ps rows Hload.
  - apply Forall2_nil_inv_r in Hload as ->. left. cbn. rewrite app_nil_r.
    split; [reflexivity|]. split.
    + intros a r Ha. now apply not_elem_of_nil in Ha.
    + intros j k aj ak Hj. discriminate Hj.
  - apply Forall2_cons_inv_r in Hload as (p & ps1 & Hp & Hps & ->).
    cbn [InsertPuppies_loop]. rewrite Hp. unfold sql.Exec_insert.
    destruct (sql.unique_ok _ rows) eqn:Hok.
    + set (ra := sql.mkRow (sql.Integer (sql.next_rowid e rows))
                           (sql.integer_affinity e (Image.ID a))
                           (sql.Integer (Image.UpVotes a))
                           (sql.Integer (Image.DownVotes a))).
      pose proof (proj1 (unique_ok_spec _ rows) Hok) as Hrows.
      destruct (IH ps1 (rows ++ [ra]) Hps) as [[Hrun [C1 C2]]|[Hrun HnC]].
      * left. split.
        -- rewrite Hrun. cbn [inserted]. now rewrite <- app_assoc.
        -- split.
           ++ intros a1 r Ha1 Hr. apply elem_of_cons in Ha1 as [->|Ha1].
              ** now apply Hrows.
              ** apply C1; [exact Ha1|]. apply elem_of_app. now left.
           ++ intros j k aj ak Hj Hk Hne. destruct j as [|j], k as [|k]; cbn in Hj, Hk.
              ** contradiction.
              ** injection Hj as <-.
                 apply (C1 ak ra); [apply list_elem_of_lookup; now exists k|].
                 apply elem_of_app. right. apply list_elem_of_here.
              ** injection Hk as <-. rewrite value_eqb_sym.
                 apply (C1 aj ra); [apply list_elem_of_lookup; now exists j|].
                 apply elem_of_app. right. apply list_elem_of_here.
              ** apply (C2 j k); [exact Hj|exact Hk|lia].
      * right. split; [exact Hrun|]. intros [C1 C2]. apply HnC. split.
        -- intros a1 r Ha1 Hr. apply elem_of_app in Hr as [Hr|Hr].
           ++ apply C1; [now apply list_elem_of_further|exact Hr].
           ++ apply list_elem_of_singleton in Hr as ->. cbn.
              apply list_elem_of_lookup in Ha1 as [k Hk].
              apply (C2 0%nat (S k)); [reflexivity|exact Hk|lia].
        -- intros j k aj ak Hj Hk Hne. apply (C2 (S j) (S k)); [exact Hj|exact Hk|lia].
    + right. split; [reflexivity|]. intros [C1 _].
      assert (sql.unique_ok (sql.integer_affinity e (Image.ID a)) rows = true);
        [|congruence].
      apply unique_ok_spec. intros r Hr. apply C1; [apply list_elem_of_here|exact Hr].
Qed.

(** X17. [InsertPuppies] on an open store with its table, given images that
    are all there, never panics.  It returns exactly when the ids are new to
    the table and differ from one another as the store sees them, and then
    the table is the old rows followed by a row per image; in every other
    case it is fatal. *)
Theorem InsertPuppies_outcome
    (e : sql.Engine) (d : sql.DB) (rows : list sql.row)
    (h : list Image.t) (ps : list ptr) (imgs : list Image.t) :
  sql.votes d = sql.Votes rows →
  Forall2 (λ p a, load h p = Some a) ps imgs →
  (insertable e rows imgs ∧
   InsertPuppies e (Some d) h ps
     = sql.Ok (sql.mkDB (sql.Votes (rows ++ inserted e rows imgs))
                        (sql.statements d ++ [sql.insert_text]))) ∨
  (¬ insertable e rows imgs ∧ InsertPuppies e (Some d) h ps = sql.Fatal).
Proof.
  intros Hd Hload. unfold InsertPuppies, sql.Prepare. rewrite Hd.
  change (sql.parse e sql.insert_text) with (Some sql.StmtInsert).
  cbn [sql.votes sql.statements].
  destruct (InsertPuppies_loop_outcome e h imgs ps rows Hload) as [[-> C]|[-> C]].
  - left. now split.
  - right. now split.
Qed.

Lemma InsertPuppies_outcome_witness :
  insertable engine_lenient [] (entries state123) ∧
  InsertPuppies engine_lenient (Some store0) (heap state123) (Some <$> All state123)
    = sql.Ok store123.
Proof.
  destruct (InsertPuppies_outcome engine_lenient store0 [] (heap state123)
              (Some <$> All state123) (entries state123) eq_refl
              (wf_entries state123 (wf_check state123 eq_refl)))
    as [[C HI]|[_ HI]].
  - split; [exact C|exact HI].
  - vm_compute in HI. discriminate HI.
Defined.

(** X18. Registering a photo: [NewImage] and then [Save] of its result.
    When the photo's id is new, [Find] then returns an entry other than the
    image the caller holds, with the photo's id, title and URLs and zero
    counts.  When the id is saved already, the registry is left as it was:
    the entries keep their counts, a photo seen again does not reset its
    votes. *)
Theorem register_photo (s : State) (photo : Photo.t) :
  wf s →
  ∃ (s1 s2 : State) (l : loc),
    NewImage s photo = (s1, Some l) ∧
    Save s1 (Some l) = Some (s2, None) ∧
    (saved s (Photo.ID photo) →
       All s2 = All s ∧ entries s2 = entries s ∧ ∀ ID, Find s2 ID = Find s ID) ∧
    (¬ saved s (Photo.ID photo) →
       ∃ r, Find s2 (Photo.ID photo) = Some (Some r, true) ∧ r ≠ l ∧
            heap s2 !! r = heap s2 !! l ∧
            heap s2 !! r =
              Some (Image.mk (Photo.ID photo) (Photo.Title photo)
                             (URL photo SizeThumbnail) (URL photo SizeLarge) 0 0) ∧
            All s2 = All s ++ [r]).
Proof.
  intros Hwf.
  set (i := Image.mk (Photo.ID photo) (Photo.Title photo)
                     (URL photo SizeThumbnail) (URL photo SizeLarge) 0 0).
  set (s1 := mkState (heap s ++ [i]) (images s)).
  assert (Hwf1 : wf s1) by now apply wf_grow.
  assert (Hl : heap s1 !! length (heap s) = Some i) by now apply list_lookup_middle.
  assert (Hent : entries s1 = entries s).
  { unfold entries. cbn. apply entries_ext. intros r Hr. now apply lookup_grow. }
  assert (Hsaved : saved s1 (Photo.ID photo) ↔ saved s (Photo.ID photo))
    by now rewrite !saved_entries, Hent.
  assert (HFind : ∀ ID, Find s1 ID = Find s ID).
  { intros ID. unfold Find. cbn. apply Find_loop_ext. intros r Hr.
    now rewrite lookup_grow. }
  destruct (saved_or_not s (Photo.ID photo)) as [Hs|Hf].
  - exists s1, s1, (length (heap s)). split_and!; try done.
    + apply Save_saved with i; try done. now apply Hsaved.
  - set (s2 := mkState (heap s1 ++ [i]) (images s1 ++ [length (heap s1)])).
    assert (Hf1 : ¬ saved s1 (Image.ID i)) by (intros H; now apply Hf, Hsaved).
    exists s1, s2, (length (heap s)). split_and!; try done.
    + now apply Save_fresh.
    + intros _. exists (length (heap s1)).
      assert (Hr : heap s2 !! length (heap s1) = Some i) by now apply list_lookup_middle.
      assert (Hlen : length (heap s1) = S (length (heap s)))
        by (unfold s1; cbn; rewrite length_app; cbn; lia).
      split_and!.
      * unfold Find, s2. cbn [heap images]. rewrite Find_loop_app_fresh.
        -- cbn [Find_loop]. rewrite list_lookup_middle by reflexivity.
           cbn [mbind option_bind]. now rewrite String.eqb_refl.
        -- intros r Hr1. change (images s1) with (images s) in Hr1.
           destruct (Hwf1 r Hr1) as [b Hb]. exists b. now apply lookup_app_l_Some.
        -- intros r b Hr1 Hb E. apply Hf1. exists r, b. split_and!; try done.
           destruct (Hwf1 r Hr1) as [b1 Hb1].
           rewrite (lookup_app_l_Some _ _ _ _ Hb1) in Hb. congruence.
      * lia.
      * rewrite Hr. symmetry. now apply lookup_app_l_Some.
      * exact Hr.
      * reflexivity.
Qed.

Lemma register_photo_witness :
  ∃ (s1 s2 : State) (l r : loc),
    NewImage NewImageManager photo1 = (s1, Some l) ∧
    Save s1 (Some l) = Some (s2, None) ∧
    Find s2 "1" = Some (Some r, true) ∧ r ≠ l.
Proof.
  destruct (register_photo NewImageManager photo1 (wf_check NewImageManager eq_refl))
    as (s1 & s2 & l & HN & HS & _ & Hnew).
  destruct Hnew as (r & HF & Hne & _).
  - apply not_saved_check; [apply wf_check|]; reflexivity.
  - exists s1, s2, l, r. split_and!; assumption.
Defined.
